(** * Reconciliation bookkeeping of the environment API

    A shallow embedding of [api/src/environment/environment.controller.ts]
    and of the [ReconciliationService] it drives: the component diff of
    [saveOrUpdate], the run fan-out of [createEnvRecon], the stale-run
    queries and bulk updates, the cost recompute of [updateCost] and the
    latest-run query [getLatestCompReconcile].

    Tables of the relational store are finite maps keyed by their primary
    key; JavaScript numbers are binary64 floats; strings are compared with
    [===], that is, character by character. A store call either is
    accepted or is rejected, and the callbacks handed to
    [Promise.allSettled] have their calls answered in an arbitrary order. *)

From Stdlib Require Import ZArith Floats.
From stdpp Require Import gmap strings list fin_maps.

Open Scope Z_scope.

(** ** JavaScript values used by the controller *)

Module Js.

(** [Array.prototype.find]: the first element that satisfies the callback,
    [undefined] (here [None]) when there is none. *)
Definition find {A} (p : A → bool) (l : list A) : option A := List.find p l.

(** [!x] for an [x] that is either an object or [undefined]: objects are
    truthy, [undefined] is falsy. *)
Definition not_obj {A} (x : option A) : bool :=
  match x with Some _ => false | None => true end.

(** [a || b] on strings: the empty string is the only falsy string. *)
Definition or_str (a : option string) (b : string) : string :=
  match a with
  | Some s => if String.eqb s "" then b else s
  | None => b
  end.

(** [a || null] on an optional string. *)
Definition or_null (a : option string) : option string :=
  match a with
  | Some s => if String.eqb s "" then None else Some s
  | None => None
  end.

End Js.

(** ** List facts used throughout *)

Lemma filter_none {A} (P : A → Prop) `{∀ x, Decision (P x)} (l : list A) :
  (∀ x, x ∈ l → ¬ P x) → filter P l = [].
Proof.
  induction l as [|a l IH]; intros Hall; [done|].
  rewrite filter_cons_False by (apply Hall; left).
  apply IH. intros x Hx. apply Hall. by right.
Qed.

Lemma NoDup_fmap_eq {A B} (f : A → B) (l : list A) x y :
  NoDup (f <$> l) → x ∈ l → y ∈ l → f x = f y → x = y.
Proof.
  induction l as [|a l IH]; simpl; intros Hnd Hx Hy Hf.
  - by apply elem_of_nil in Hx.
  - apply NoDup_cons in Hnd as [Hna Hnd].
    apply elem_of_cons in Hx as [->|Hx]; apply elem_of_cons in Hy as [->|Hy].
    + done.
    + exfalso. apply Hna. rewrite Hf. by apply list_elem_of_fmap_2.
    + exfalso. apply Hna. rewrite <- Hf. by apply list_elem_of_fmap_2.
    + by apply IH.
Qed.

Lemma filter_fmap_NoDup {A B} (f : A → B) (p : A → bool) (l : list A) :
  NoDup (f <$> l) → NoDup (f <$> List.filter p l).
Proof.
  induction l as [|a l IH]; simpl; [done|].
  rewrite NoDup_cons. intros [Hn Hnd]. destruct (p a).
  - rewrite fmap_cons. apply NoDup_cons. split; [|by apply IH].
    intros (x & Hx & Hin)%list_elem_of_fmap. apply Hn. rewrite Hx.
    apply list_elem_of_fmap_2.
    apply list_elem_of_In, List.filter_In in Hin as [Hin _].
    by apply list_elem_of_In.
  - by apply IH.
Qed.

Lemma filter_all {A} (p : A → bool) (l : list A) :
  (∀ x, x ∈ l → p x = true) → List.filter p l = l.
Proof.
  induction l as [|a l IH]; intros Hall; simpl; [done|].
  rewrite (Hall a) by left. f_equal. apply IH. intros x Hx. apply Hall. by right.
Qed.

Lemma elem_of_List_filter {A} (p : A → bool) (l : list A) x :
  x ∈ List.filter p l ↔ x ∈ l ∧ p x = true.
Proof. by rewrite !list_elem_of_In, List.filter_In. Qed.

(** ** Entities

    The TypeORM entities the controller and the service pass around. A
    relation is kept as the key of the row it points to, or as the loaded
    rows where the code reads through it; an unloaded or nulled relation is
    [None]. Times are instants on the clock (milliseconds). The entity
    classes themselves are not in the files modelled here: the fields are
    those the code reads and writes. *)

(** One entry of a submitted specification ([EnvSpecComponentDto]): a name
    and the rest of its configuration, kept opaque. *)
Record EnvSpecComponentDto := mkSpec {
  spec_name : string;
  spec_config : string;
}.

(** Entity [ComponentReconcile]. [cr_isSkipped] is the nullable flag:
    [None] is SQL NULL. *)
Record ComponentReconcile := mkCompRecon {
  cr_reconcileId : Z;
  cr_status : string;
  cr_startDateTime : option Z;
  cr_endDateTime : option Z;
  cr_estimatedCost : float;
  cr_isSkipped : option bool;
  cr_component : option Z;
  cr_environmentReconcile : option Z;
  cr_organization : Z;
}.

(** Entity [EnvironmentReconcile]: its columns. *)
Record EnvironmentReconcile := mkEnvRecon {
  er_reconcileId : Z;
  er_status : string;
  er_dag : list EnvSpecComponentDto;
  er_startDateTime : option Z;
  er_endDateTime : option Z;
  er_errorMessage : option string;
  er_gitSha : string;
  er_estimatedCost : float;
  er_environment : option Z;
  er_team : Z;
  er_organization : Z;
}.

(** An [EnvironmentReconcile] held in memory: the columns, and the
    one-to-many relation [componentReconciles], which is a property of the
    object only when the entity was loaded with it. *)
Record LoadedEnvironmentReconcile := mkLoaded {
  columns : EnvironmentReconcile;
  componentReconciles : option (list ComponentReconcile);
}.

(** Entity [Component]. *)
Record Component := mkComponent {
  comp_id : Z;
  comp_name : string;
  comp_isDeleted : bool;
  comp_environment : Z;
  latestCompRecon : option ComponentReconcile;
}.

(** Entity [Environment], as [findById] returns it with its components. *)
Record Environment := mkEnvironment {
  env_id : Z;
  env_name : string;
  env_dag : list EnvSpecComponentDto;
  env_isDeleted : bool;
  components : list Component;
  latestEnvRecon : option LoadedEnvironmentReconcile;
}.

(** ** The component diff of [saveOrUpdate] *)

Module Diff.

(** The three lists [saveOrUpdate] computes before it touches the store. *)
Record Plan := mkPlan {
  dag : list EnvSpecComponentDto;
  newComponents : list EnvSpecComponentDto;
  missingComponents : list Component;
}.

(** [incoming.filter((inc) => !currentComps.find((comp) => comp.name === inc.name))] *)
Definition filterNew (currentComps : list Component)
    (incoming : list EnvSpecComponentDto) : list EnvSpecComponentDto :=
  List.filter
    (λ inc, Js.not_obj
       (Js.find (λ comp, String.eqb (comp_name comp) (spec_name inc)) currentComps))
    incoming.

(** One iteration of [for (const comp of currentComps)]; the state is the
    pair [(missingComponents, existingComponents)] and [push] appends. *)
Definition loopBody (incoming : list EnvSpecComponentDto)
    (acc : list Component * list EnvSpecComponentDto) (comp : Component)
    : list Component * list EnvSpecComponentDto :=
  let found := Js.find (λ i, String.eqb (comp_name comp) (spec_name i)) incoming in
  match found with
  | None => (acc.1 ++ [comp], acc.2)
  | Some f => (acc.1, acc.2 ++ [f])
  end.

(** Lines 62-85 of the controller. *)
Definition plan (currentComps : list Component)
    (incoming : list EnvSpecComponentDto) : Plan :=
  let newComponents := filterNew currentComps incoming in
  let '(missingComponents, existingComponents) :=
    fold_left (loopBody incoming) currentComps ([], []) in
  {| dag := ([] ++ existingComponents) ++ newComponents;
     newComponents := newComponents;
     missingComponents := missingComponents |}.

(** *** The plan in the words of the specification *)

(** The incoming spec a stored component is matched with, if any. *)
Definition matchOf (incoming : list EnvSpecComponentDto) (c : Component)
    : option EnvSpecComponentDto :=
  Js.find (λ i, String.eqb (comp_name c) (spec_name i)) incoming.

Definition toCreate_spec (currentComps : list Component)
    (incoming : list EnvSpecComponentDto) : list EnvSpecComponentDto :=
  filter (λ s, spec_name s ∉ comp_name <$> currentComps) incoming.

Definition toDelete_spec (currentComps : list Component)
    (incoming : list EnvSpecComponentDto) : list Component :=
  filter (λ c, comp_name c ∉ spec_name <$> incoming) currentComps.

Definition existing_spec (currentComps : list Component)
    (incoming : list EnvSpecComponentDto) : list EnvSpecComponentDto :=
  omap (matchOf incoming) currentComps.

(** *** Lemmas on [find] by name *)

Lemma find_comp_none (n : string) (cs : list Component) :
  Js.find (λ comp, String.eqb (comp_name comp) n) cs = None ↔ n ∉ comp_name <$> cs.
Proof.
  unfold Js.find. induction cs as [|c cs IH]; simpl.
  - split; [intros _; apply not_elem_of_nil | done].
  - destruct (String.eqb_spec (comp_name c) n) as [->|Hne].
    + split; [done | intros H; exfalso; apply H; left].
    + rewrite IH, not_elem_of_cons. intuition congruence.
Qed.

Lemma find_spec_none (n : string) (ss : list EnvSpecComponentDto) :
  Js.find (λ i, String.eqb n (spec_name i)) ss = None ↔ n ∉ spec_name <$> ss.
Proof.
  unfold Js.find. induction ss as [|s ss IH]; simpl.
  - split; [intros _; apply not_elem_of_nil | done].
  - destruct (String.eqb_spec n (spec_name s)) as [->|Hne].
    + split; [done | intros H; exfalso; apply H; left].
    + rewrite IH, not_elem_of_cons. intuition congruence.
Qed.

Lemma find_spec_some (n : string) (ss : list EnvSpecComponentDto) s :
  Js.find (λ i, String.eqb n (spec_name i)) ss = Some s → s ∈ ss ∧ spec_name s = n.
Proof.
  unfold Js.find. intros H. apply List.find_some in H as [Hin Heq].
  split; [by apply list_elem_of_In | by apply String.eqb_eq in Heq].
Qed.

(** *** The loop, unrolled *)

Lemma loop_acc incoming cs ms es :
  fold_left (loopBody incoming) cs (ms, es)
  = (ms ++ toDelete_spec cs incoming, es ++ existing_spec cs incoming).
Proof.
  revert ms es. induction cs as [|c cs IH]; intros ms es; simpl.
  - unfold toDelete_spec, existing_spec. simpl. by rewrite !app_nil_r.
  - unfold loopBody at 2. simpl.
    unfold toDelete_spec, existing_spec in *. simpl.
    rewrite filter_cons. unfold matchOf at 1.
    destruct (Js.find _ incoming) as [f|] eqn:Hf.
    + rewrite IH. rewrite decide_False.
      * by rewrite <- app_assoc.
      * intros Hn. apply find_spec_none in Hn. congruence.
    + rewrite IH. rewrite decide_True by (by apply find_spec_none).
      by rewrite <- app_assoc.
Qed.

Lemma filterNew_spec cs incoming :
  filterNew cs incoming = toCreate_spec cs incoming.
Proof.
  unfold filterNew, toCreate_spec.
  induction incoming as [|s ss IH]; simpl; [done|].
  rewrite filter_cons, IH.
  destruct (Js.find _ cs) eqn:Hf; simpl.
  - rewrite decide_False; [done|].
    intros Hn. apply find_comp_none in Hn. congruence.
  - rewrite decide_True; [done|]. by apply find_comp_none.
Qed.

Lemma plan_unfold cs incoming :
  plan cs incoming
  = {| dag := existing_spec cs incoming ++ toCreate_spec cs incoming;
       newComponents := toCreate_spec cs incoming;
       missingComponents := toDelete_spec cs incoming |}.
Proof.
  unfold plan. rewrite loop_acc, filterNew_spec. reflexivity.
Qed.

(** Every name of the merged dag is a name of the incoming specification,
    and every incoming name is a name of the merged dag. *)
Lemma dag_names_incoming cs incoming n :
  n ∈ spec_name <$> dag (plan cs incoming) ↔ n ∈ spec_name <$> incoming.
Proof.
  rewrite plan_unfold. simpl. rewrite fmap_app, elem_of_app.
  unfold existing_spec, toCreate_spec. split.
  - intros [H|H]; apply list_elem_of_fmap in H as (s & -> & Hs).
    + apply list_elem_of_omap in Hs as (c & _ & Hm).
      apply find_spec_some in Hm as [Hin _]. by apply list_elem_of_fmap_2.
    + apply list_elem_of_filter in Hs as [_ Hin]. by apply list_elem_of_fmap_2.
  - intros H. apply list_elem_of_fmap in H as (s & -> & Hs).
    destruct (decide (spec_name s ∈ comp_name <$> cs)) as [Hc|Hc].
    + left. apply list_elem_of_fmap in Hc as (c & Hn & Hc).
      destruct (matchOf incoming c) as [f|] eqn:Hm.
      * pose proof Hm as Hm'. apply find_spec_some in Hm' as [_ Hf].
        rewrite Hn, <- Hf. apply list_elem_of_fmap_2.
        apply list_elem_of_omap. eauto.
      * apply find_spec_none in Hm. exfalso. apply Hm.
        rewrite <- Hn. by apply list_elem_of_fmap_2.
    + right. apply list_elem_of_fmap_2. by apply list_elem_of_filter.
Qed.

(** Modelled from the spec: [batchCreateComponents] and
    [batchDeleteComponents] hand the plan to [ComponentService], which is
    not in the files modelled here; after both the live components of the
    environment are the kept rows, in stored order, followed by one fresh
    row per created name. [nextId] is the first unused key. *)
Fixpoint createRows (envId nextId : Z) (names : list string) : list Component :=
  match names with
  | [] => []
  | n :: ns =>
      mkComponent nextId n false envId None :: createRows envId (nextId + 1) ns
  end.

Definition applyPlan (envId nextId : Z) (currentComps : list Component) (p : Plan)
    : list Component :=
  List.filter
    (λ c, negb (existsb (λ m, Z.eqb (comp_id m) (comp_id c)) (missingComponents p)))
    currentComps
  ++ createRows envId nextId (spec_name <$> newComponents p).

Lemma createRows_names envId nextId names :
  comp_name <$> createRows envId nextId names = names.
Proof.
  revert nextId. induction names as [|n ns IH]; intros k; simpl; [done|].
  by rewrite IH.
Qed.

Lemma kept_names incoming cs :
  comp_name <$> filter (λ c, comp_name c ∈ spec_name <$> incoming) cs
  = spec_name <$> existing_spec cs incoming.
Proof.
  unfold existing_spec. induction cs as [|c cs IH]; simpl; [done|].
  rewrite filter_cons. destruct (matchOf incoming c) as [f|] eqn:Hm.
  - pose proof Hm as Hm'. apply find_spec_some in Hm' as [Hin Hf].
    rewrite decide_True.
    + rewrite !fmap_cons. f_equal; [done | apply IH].
    + rewrite <- Hf. by apply list_elem_of_fmap_2.
  - apply find_spec_none in Hm. by rewrite decide_False.
Qed.

(** With primary keys unique, applying a plan leaves components whose
    names are those of the plan's dag, in the same order. *)
Lemma applyPlan_names envId nextId cs incoming :
  NoDup (comp_id <$> cs) →
  comp_name <$> applyPlan envId nextId cs (plan cs incoming)
  = spec_name <$> dag (plan cs incoming).
Proof.
  intros Hnd. unfold applyPlan. rewrite plan_unfold. simpl.
  rewrite !fmap_app, createRows_names, <- kept_names. f_equal. f_equal.
  assert (Hkeep : ∀ c, c ∈ cs →
    negb (existsb (λ m, Z.eqb (comp_id m) (comp_id c)) (toDelete_spec cs incoming)) = true
    ↔ comp_name c ∈ spec_name <$> incoming).
  { intros c Hc. rewrite negb_true_iff, <- not_true_iff_false, existsb_exists.
    split.
    - intros Hno. destruct (decide (comp_name c ∈ spec_name <$> incoming)); [done|].
      exfalso. apply Hno. exists c. split; [|by apply Z.eqb_eq].
      apply list_elem_of_In, list_elem_of_filter. done.
    - intros Hin (m & Hm & Heq). apply Z.eqb_eq in Heq.
      apply list_elem_of_In, list_elem_of_filter in Hm as [Hmn Hmc].
      assert (m = c) as -> by (by eapply NoDup_fmap_eq). done. }
  clear Hnd. revert Hkeep. generalize (toDelete_spec cs incoming) as ms.
  intros ms. induction cs as [|c cs IH]; intros Hkeep; simpl; [done|].
  rewrite filter_cons.
  destruct (negb _) eqn:Hb.
  - rewrite decide_True by (apply Hkeep; [left | done]).
    f_equal. apply IH. intros c' Hc'. apply Hkeep. by right.
  - rewrite decide_False.
    + apply IH. intros c' Hc'. apply Hkeep. by right.
    + intros Hin. apply Hkeep in Hin; [congruence | left].
Qed.

(** *** Concrete rows of the merge-order example *)

Definition row_b : Component := mkComponent 1 "b" false 7 None.
Definition row_a : Component := mkComponent 2 "a" false 7 None.
Definition in_a : EnvSpecComponentDto := mkSpec "a" "cfg-a".
Definition in_c : EnvSpecComponentDto := mkSpec "c" "cfg-c".

(** C1. For all stored components and all incoming specs, [plan] returns
    as [newComponents] (toCreate) the incoming specs whose name is not a
    stored name, in incoming order; as [missingComponents] (toDelete) the
    stored components whose name is not an incoming name, in stored order;
    and as [dag] (mergedDag) the incoming specs matched by the stored
    components, in stored order, followed by toCreate. For stored [b; a] and
    incoming [a; c] this is toCreate [c], toDelete [b], mergedDag [a; c]. *)
Theorem plan_characterised :
  (∀ (currentComps : list Component) (incoming : list EnvSpecComponentDto),
     newComponents (plan currentComps incoming)
       = filter (λ s, spec_name s ∉ comp_name <$> currentComps) incoming
     ∧ missingComponents (plan currentComps incoming)
       = filter (λ c, comp_name c ∉ spec_name <$> incoming) currentComps
     ∧ dag (plan currentComps incoming)
       = omap (matchOf incoming) currentComps
         ++ newComponents (plan currentComps incoming))
  ∧ (∀ (c : Component) (incoming : list EnvSpecComponentDto) s,
       matchOf incoming c = Some s → s ∈ incoming ∧ spec_name s = comp_name c)
  ∧ (∀ (c : Component) (incoming : list EnvSpecComponentDto),
       matchOf incoming c = None ↔ comp_name c ∉ spec_name <$> incoming)
  ∧ plan [row_b; row_a] [in_a; in_c]
    = {| dag := [in_a; in_c];
         newComponents := [in_c];
         missingComponents := [row_b] |}.
Proof.
  split; [|split; [|split]].
  - intros cs incoming. rewrite plan_unfold. simpl. done.
  - intros c incoming s H. by apply find_spec_some in H.
  - intros c incoming. apply find_spec_none.
  - reflexivity.
Qed.

(** C2. Once the first plan is applied, so that the stored components
    carry exactly the names of the merged dag, a second diff against the
    same incoming list creates nothing and deletes nothing. *)
Theorem plan_idempotent (currentComps stored' : list Component)
    (incoming : list EnvSpecComponentDto) :
  comp_name <$> stored' = spec_name <$> dag (plan currentComps incoming) →
  newComponents (plan stored' incoming) = []
  ∧ missingComponents (plan stored' incoming) = [].
Proof.
  intros Hnames. rewrite (plan_unfold stored'). simpl.
  unfold toCreate_spec, toDelete_spec. split.
  - apply filter_none. intros s Hs Hn. apply Hn.
    rewrite Hnames. apply dag_names_incoming. by apply list_elem_of_fmap_2.
  - apply filter_none. intros c Hc Hn. apply Hn.
    apply (dag_names_incoming currentComps). rewrite <- Hnames.
    by apply list_elem_of_fmap_2.
Qed.

Lemma plan_idempotent_witness :
  comp_name <$> applyPlan 7 3 [row_b; row_a] (plan [row_b; row_a] [in_a; in_c])
    = spec_name <$> dag (plan [row_b; row_a] [in_a; in_c])
  ∧ newComponents
      (plan (applyPlan 7 3 [row_b; row_a] (plan [row_b; row_a] [in_a; in_c]))
         [in_a; in_c]) = []
  ∧ missingComponents
      (plan (applyPlan 7 3 [row_b; row_a] (plan [row_b; row_a] [in_a; in_c]))
         [in_a; in_c]) = [].
Proof.
  split; [reflexivity|].
  apply (plan_idempotent [row_b; row_a]). reflexivity.
Defined.

End Diff.

(** ** The store and the run fan-out of [createEnvRecon] *)

(** How an awaited call settles: fulfilled with a value, or rejected. *)
Inductive Settled (A : Type) : Type :=
  | Fulfilled (a : A)
  | Rejected.
Arguments Fulfilled {A} a.
Arguments Rejected {A}.

Record Organization := mkOrg { org_id : Z; org_name : string }.
Record Team := mkTeam { team_id : Z; team_name : string }.

(** The tables behind [envReconRepo], [compReconRepo] and the component
    repository of [ComponentService], each keyed by its primary key. *)
Record Store := mkStore {
  envReconRepo : gmap Z EnvironmentReconcile;
  compReconRepo : gmap Z ComponentReconcile;
  componentRepo : gmap Z Component;
}.

(** Which store calls are rejected during one request. The calls made for
    a component are keyed by that component's id. *)
Record Faults := mkFaults {
  envReconSaveFails : bool;
  findByIdFails : bool;
  compReconSaveFails : Z → bool;
  compUpdateFails : Z → bool;
}.

Definition noFaults : Faults :=
  {| envReconSaveFails := false; findByIdFails := false;
     compReconSaveFails := λ _, false; compUpdateFails := λ _, false |}.

(** [CreateEnvironmentDto], as the controller builds it. *)
Record CreateEnvironmentDto := mkCreateEnv {
  ce_name : string;
  ce_dag : list EnvSpecComponentDto;
}.

Record CreateEnvironmentReconciliationDto := mkCreateEnvRecon {
  cer_components : list EnvSpecComponentDto;
  cer_name : string;
  cer_startDateTime : option Z;
  cer_teamName : string;
  cer_errorMessage : option string;
}.

Record CreateComponentReconciliationDto := mkCreateCompRecon {
  ccr_status : option string;
  ccr_name : string;
  ccr_envReconcileId : Z;
  ccr_startDateTime : option Z;
}.

(** [repo.save(rows)] for rows that carry their primary key: each row is
    written under its key, in the order of the array. *)
Definition saveAll {V} (key : V → Z) (rows : list V) (repo : gmap Z V)
    : gmap Z V :=
  foldl (λ m row, <[key row := row]> m) repo rows.

(** [repo.find({ where })]: the rows that satisfy the condition. *)
Definition findWhere {V} (P : V → Prop) `{∀ v, Decision (P v)}
    (repo : gmap Z V) : list V :=
  (map_to_list (filter (λ kv, P kv.2) repo)).*2.

Lemma findWhere_elem {V} (P : V → Prop) `{∀ v, Decision (P v)}
    (repo : gmap Z V) v :
  v ∈ findWhere P repo ↔ ∃ k, repo !! k = Some v ∧ P v.
Proof.
  unfold findWhere. rewrite list_elem_of_fmap. split.
  - intros ([k v'] & -> & Hin). exists k.
    by apply elem_of_map_to_list, map_lookup_filter_Some in Hin.
  - intros (k & Hl & HP). exists (k, v). split; [done|].
    by apply elem_of_map_to_list, map_lookup_filter_Some.
Qed.

(** [{ ...entry, status }] *)
Definition er_withStatus (entry : EnvironmentReconcile) (status : string)
    : EnvironmentReconcile :=
  {| er_reconcileId := er_reconcileId entry;
     er_status := status;
     er_dag := er_dag entry;
     er_startDateTime := er_startDateTime entry;
     er_endDateTime := er_endDateTime entry;
     er_errorMessage := er_errorMessage entry;
     er_gitSha := er_gitSha entry;
     er_estimatedCost := er_estimatedCost entry;
     er_environment := er_environment entry;
     er_team := er_team entry;
     er_organization := er_organization entry |}.

Definition cr_withStatus (entry : ComponentReconcile) (status : string)
    : ComponentReconcile :=
  {| cr_reconcileId := cr_reconcileId entry;
     cr_status := status;
     cr_startDateTime := cr_startDateTime entry;
     cr_endDateTime := cr_endDateTime entry;
     cr_estimatedCost := cr_estimatedCost entry;
     cr_isSkipped := cr_isSkipped entry;
     cr_component := cr_component entry;
     cr_environmentReconcile := cr_environmentReconcile entry;
     cr_organization := cr_organization entry |}.

(** [{ ...columns, estimatedCost }], what [merge] leaves in the columns. *)
Definition er_withCost (entry : EnvironmentReconcile) (estimatedCost : float)
    : EnvironmentReconcile :=
  {| er_reconcileId := er_reconcileId entry;
     er_status := er_status entry;
     er_dag := er_dag entry;
     er_startDateTime := er_startDateTime entry;
     er_endDateTime := er_endDateTime entry;
     er_errorMessage := er_errorMessage entry;
     er_gitSha := er_gitSha entry;
     er_estimatedCost := estimatedCost;
     er_environment := er_environment entry;
     er_team := er_team entry;
     er_organization := er_organization entry |}.

(** Modelled from the spec: the repository is not in the files modelled
    here. [save] of an entity held in memory writes its columns under its
    key and, when the nested collection is still a property of the object,
    writes the collection's rows as they are in memory. *)
Definition saveLoaded (st : Store) (e : LoadedEnvironmentReconcile) : Store :=
  {| envReconRepo := <[er_reconcileId (columns e) := columns e]> (envReconRepo st);
     compReconRepo :=
       match componentReconciles e with
       | Some children => saveAll cr_reconcileId children (compReconRepo st)
       | None => compReconRepo st
       end;
     componentRepo := componentRepo st |}.

(** Order of an [order: { startDateTime: -1 }] query on a nullable column:
    NULL sorts below every value. *)
Definition nullsLowLeb (a b : option Z) : bool :=
  match a, b with
  | None, _ => true
  | Some _, None => false
  | Some x, Some y => x <=? y
  end.

(** The first row of a list in descending order of [key]; among rows with
    the same key the store may return any, here the first of the list. *)
Fixpoint firstDesc {V} (key : V → option Z) (rows : list V) : option V :=
  match rows with
  | [] => None
  | v :: rows' =>
      match firstDesc key rows' with
      | None => Some v
      | Some w => if nullsLowLeb (key w) (key v) then Some v else Some w
      end
  end.

Module ReconciliationService.

(** [envReconRepo.save] of a new entity: the row gets a generated key.
    Columns the entity literal leaves out take their defaults:
    Modelled from the spec: the entity class is not in the files modelled
    here; [endDateTime] is optional and [estimatedCost] defaults to 0. *)
Definition createEnvRecon (flt : Faults) (st : Store) (org : Organization)
    (team : Team) (env : Environment)
    (createEnv : CreateEnvironmentReconciliationDto)
    : Store * Settled EnvironmentReconcile :=
  if envReconSaveFails flt then (st, Rejected)
  else
    let rid := fresh (dom (envReconRepo st)) in
    let row :=
      {| er_reconcileId := rid;
         er_startDateTime := cer_startDateTime createEnv;
         er_environment := Some (env_id env);
         er_team := team_id team;
         er_status := "initializing";
         er_organization := org_id org;
         er_dag := cer_components createEnv;
         er_gitSha := "";
         er_errorMessage := Js.or_null (cer_errorMessage createEnv);
         er_endDateTime := None;
         er_estimatedCost := 0%float |} in
    ({| envReconRepo := <[rid := row]> (envReconRepo st);
        compReconRepo := compReconRepo st;
        componentRepo := componentRepo st |},
     Fulfilled row).

(** [compReconRepo.save] of a new entity. Defaults as above:
    Modelled from the spec: [endDateTime] optional, [estimatedCost] 0,
    [isSkipped] unset. *)
Definition createCompRecon (flt : Faults) (st : Store) (org : Organization)
    (envRecon : EnvironmentReconcile) (comp : Component)
    (createComp : CreateComponentReconciliationDto)
    : Store * Settled ComponentReconcile :=
  if compReconSaveFails flt (comp_id comp) then (st, Rejected)
  else
    let rid := fresh (dom (compReconRepo st)) in
    let row :=
      {| cr_reconcileId := rid;
         cr_component := Some (comp_id comp);
         cr_status := Js.or_str (ccr_status createComp) "initializing";
         cr_organization := org_id org;
         cr_startDateTime := ccr_startDateTime createComp;
         cr_environmentReconcile := Some (er_reconcileId envRecon);
         cr_endDateTime := None;
         cr_estimatedCost := 0%float;
         cr_isSkipped := None |} in
    ({| envReconRepo := envReconRepo st;
        compReconRepo := <[rid := row]> (compReconRepo st);
        componentRepo := componentRepo st |},
     Fulfilled row).

(** The [where] of [getSkippedEnvironments], lines 538-551. *)
Definition skippedEnvironmentsWhere (org : Organization) (team : Team)
    (env : Environment) (ignoreReconcileIds : list Z)
    (r : EnvironmentReconcile) : Prop :=
  er_endDateTime r = None
  ∧ er_status r ≠ "skipped_reconcile"
  ∧ (er_reconcileId r ∉ ignoreReconcileIds)
  ∧ er_team r = team_id team
  ∧ er_organization r = org_id org
  ∧ er_environment r = Some (env_id env).

Definition getSkippedEnvironments (st : Store) (org : Organization)
    (team : Team) (env : Environment) (ignoreReconcileIds : list Z)
    : list EnvironmentReconcile :=
  findWhere (skippedEnvironmentsWhere org team env ignoreReconcileIds)
    (envReconRepo st).

Definition bulkUpdateEnvironmentEntries (st : Store)
    (entries : list EnvironmentReconcile) (status : string) : Store :=
  if (0 <? length entries)%nat then
    let newEntries := ((λ entry, er_withStatus entry status) <$> entries) in
    {| envReconRepo := saveAll er_reconcileId newEntries (envReconRepo st);
       compReconRepo := compReconRepo st;
       componentRepo := componentRepo st |}
  else st.

(** The [where] of [getSkippedComponents], lines 667-680. *)
Definition skippedComponentsWhere (org : Organization)
    (envRecon : EnvironmentReconcile) (comp : Component)
    (ignoreReconcileIds : list Z) (r : ComponentReconcile) : Prop :=
  cr_component r = Some (comp_id comp)
  ∧ cr_endDateTime r = None
  ∧ cr_status r ≠ "skipped_reconcile"
  ∧ (cr_reconcileId r ∉ ignoreReconcileIds)
  ∧ cr_environmentReconcile r = Some (er_reconcileId envRecon)
  ∧ cr_organization r = org_id org.

Definition getSkippedComponents (st : Store) (org : Organization)
    (envRecon : EnvironmentReconcile) (comp : Component)
    (ignoreReconcileIds : list Z) : list ComponentReconcile :=
  findWhere (skippedComponentsWhere org envRecon comp ignoreReconcileIds)
    (compReconRepo st).

Definition bulkUpdateComponentEntries (st : Store)
    (entries : list ComponentReconcile) (status : string) : Store :=
  if (0 <? length entries)%nat then
    let newEntries := ((λ entry, cr_withStatus entry status) <$> entries) in
    {| envReconRepo := envReconRepo st;
       compReconRepo := saveAll cr_reconcileId newEntries (compReconRepo st);
       componentRepo := componentRepo st |}
  else st.

(** [whereClause] of [getLatestCompReconcile], lines 802-810;
    [Like('skipped%')] is a prefix test. *)
Definition whereClause (org : Organization) (comp : Component)
    (r : ComponentReconcile) : Prop :=
  cr_component r = Some (comp_id comp)
  ∧ (String.prefix "skipped" (cr_status r) = false
     ∧ cr_status r ≠ "waiting_for_parent")
  ∧ cr_organization r = org_id org.

Definition getLatestCompReconcile (st : Store) (org : Organization)
    (comp : Component) : option ComponentReconcile :=
  firstDesc cr_startDateTime
    (findWhere
       (λ r, (whereClause org comp r ∧ cr_isSkipped r = None)
             ∨ (whereClause org comp r ∧ cr_isSkipped r = Some false))
       (compReconRepo st)).

(** The loop of [updateCost], lines 845-850; [undefined > 0] is false. *)
Definition costStep (estimatedCost : float) (comp : Component) : float :=
  match latestCompRecon comp with
  | Some r =>
      if (0 <? cr_estimatedCost r)%float
      then (estimatedCost + cr_estimatedCost r)%float
      else estimatedCost
  | None => estimatedCost
  end.

(** [updateCost], lines 844-861. The entity is changed in place, so the
    result carries the environment as the caller holds it afterwards;
    [delete] on a missing [latestEnvRecon] throws. *)
Definition updateCost (st : Store) (env : Environment)
    : Store * Settled Environment :=
  let estimatedCost := fold_left costStep (components env) 0%float in
  match latestEnvRecon env with
  | None => (st, Rejected)
  | Some envRecon =>
      let deleted := {| columns := columns envRecon; componentReconciles := None |} in
      let merged :=
        {| columns := er_withCost (columns deleted) estimatedCost;
           componentReconciles := componentReconciles deleted |} in
      (saveLoaded st merged,
       Fulfilled
         {| env_id := env_id env; env_name := env_name env;
            env_dag := env_dag env; env_isDeleted := env_isDeleted env;
            components := components env;
            latestEnvRecon := Some merged |})
  end.

End ReconciliationService.

Module ComponentService.

(** Modelled from the spec: [ComponentService.update] is not in the files
    modelled here; it merges the partial into the component and saves the
    row, which reassigns the component's latest-run reference. *)
Definition update (flt : Faults) (st : Store) (org : Organization)
    (comp : Component) (latest : ComponentReconcile)
    : Store * Settled Component :=
  if compUpdateFails flt (comp_id comp) then (st, Rejected)
  else
    let row :=
      {| comp_id := comp_id comp; comp_name := comp_name comp;
         comp_isDeleted := comp_isDeleted comp;
         comp_environment := comp_environment comp;
         latestCompRecon := Some latest |} in
    ({| envReconRepo := envReconRepo st;
        compReconRepo := compReconRepo st;
        componentRepo := <[comp_id comp := row]> (componentRepo st) |},
     Fulfilled row).

End ComponentService.

Module EnvironmentService.

(** Modelled from the spec: [EnvironmentService.findById] is not in the
    files modelled here; called with its last flag set it returns the
    environment with the component rows that belong to it. *)
Definition findById (flt : Faults) (st : Store) (org : Organization)
    (env : Environment) : Settled Environment :=
  if findByIdFails flt then Rejected
  else
    Fulfilled
      {| env_id := env_id env; env_name := env_name env;
         env_dag := env_dag env; env_isDeleted := env_isDeleted env;
         components :=
           (map_to_list
              (filter (λ kc, comp_environment kc.2 = env_id env)
                 (componentRepo st))).*2;
         latestEnvRecon := latestEnvRecon env |}.

End EnvironmentService.

Module EnvironmentController.

(** [compRecon.component = null] *)
Definition clearComponent (r : ComponentReconcile) : ComponentReconcile :=
  {| cr_reconcileId := cr_reconcileId r; cr_status := cr_status r;
     cr_startDateTime := cr_startDateTime r;
     cr_endDateTime := cr_endDateTime r;
     cr_estimatedCost := cr_estimatedCost r;
     cr_isSkipped := cr_isSkipped r;
     cr_component := None;
     cr_environmentReconcile := cr_environmentReconcile r;
     cr_organization := cr_organization r |}.

(** Where one callback of the fan-out (lines 159-174) stands: its
    [createCompRecon] is not answered yet; it holds the saved [compRecon]
    and its [update] is not answered yet; or its promise has settled. [Done]
    keeps the row the first call saved, if it saved one. *)
Inductive Progress : Type :=
  | Started
  | Saved (compRecon : ComponentReconcile)
  | Done (saved : option ComponentReconcile) (outcome : Settled Component).

(** The next store call of the callback for component [c] is answered. *)
Definition stepTask (flt : Faults) (org : Organization)
    (envRecon : EnvironmentReconcile) (st : Store) (c : Component)
    (p : Progress) : Store * Progress :=
  match p with
  | Started =>
      match
        ReconciliationService.createCompRecon flt st org envRecon c
          {| ccr_status := Some "waiting_for_parent";
             ccr_name := comp_name c;
             ccr_envReconcileId := er_reconcileId envRecon;
             ccr_startDateTime := None |}
      with
      | (st1, Rejected) => (st1, Done None Rejected)
      | (st1, Fulfilled compRecon) => (st1, Saved compRecon)
      end
  | Saved compRecon =>
      let '(st1, outcome) :=
        ComponentService.update flt st org c (clearComponent compRecon) in
      (st1, Done (Some compRecon) outcome)
  | Done _ _ => (st, p)
  end.

(** The callbacks run concurrently: the store answers their calls in an
    order of its own. A schedule names, turn by turn, the callback whose
    pending call is answered next. *)
Fixpoint runSchedule (flt : Faults) (org : Organization)
    (envRecon : EnvironmentReconcile) (sched : list nat) (st : Store)
    (tasks : list (Component * Progress))
    : Store * list (Component * Progress) :=
  match sched with
  | [] => (st, tasks)
  | i :: sched' =>
      match tasks !! i with
      | Some (c, p) =>
          let '(st1, p1) := stepTask flt org envRecon st c p in
          runSchedule flt org envRecon sched' st1 (<[i := (c, p1)]> tasks)
      | None => runSchedule flt org envRecon sched' st tasks
      end
  end.

Definition outcomeOf (t : Component * Progress) : option (Settled Component) :=
  match t.2 with
  | Done _ outcome => Some outcome
  | _ => None
  end.

(** [Promise.allSettled(live.map(callback))]: every call is answered
    sooner or later, so after the turns of [sched] the calls still pending
    are answered too (two calls per callback at most), and the promise
    resolves with every outcome; a rejection stops nothing. *)
Definition allSettled (flt : Faults) (org : Organization)
    (envRecon : EnvironmentReconcile) (sched : list nat)
    (live : list Component) (st : Store)
    : Store * list (Settled Component) :=
  let rest := seq 0 (length live) ++ seq 0 (length live) in
  let '(st', tasks) :=
    runSchedule flt org envRecon (sched ++ rest) st ((λ c, (c, Started)) <$> live) in
  (st', omap outcomeOf tasks).

(** [createEnvRecon], lines 141-178; [now] is [new Date()] and [sched]
    the order in which the store answers the calls of the fan-out. *)
Definition createEnvRecon (flt : Faults) (now : Z) (sched : list nat)
    (st : Store) (org : Organization) (team : Team) (env : Environment)
    (createEnv : CreateEnvironmentDto)
    : Store * Settled EnvironmentReconcile :=
  match
    ReconciliationService.createEnvRecon flt st org team env
      {| cer_components := ce_dag createEnv;
         cer_name := env_name env;
         cer_startDateTime := Some now;
         cer_teamName := team_name team;
         cer_errorMessage := None |}
  with
  | (st1, Rejected) => (st1, Rejected)
  | (st1, Fulfilled envRecon) =>
      match EnvironmentService.findById flt st1 org env with
      | Rejected => (st1, Rejected)
      | Fulfilled envWithComps =>
          let live :=
            List.filter (λ c, negb (comp_isDeleted c)) (components envWithComps) in
          let '(st2, _) := allSettled flt org envRecon sched live st1 in
          (st2, Fulfilled envRecon)
      end
  end.

(** *** What the fan-out leaves in the store *)

(** The row [createCompRecon] saves for component [c] under key [rid]
    when the controller calls it. *)
Definition pendingRow (org : Organization) (envRecon : EnvironmentReconcile)
    (c : Component) (rid : Z) : ComponentReconcile :=
  {| cr_reconcileId := rid;
     cr_status := "waiting_for_parent";
     cr_startDateTime := None;
     cr_endDateTime := None;
     cr_estimatedCost := 0%float;
     cr_isSkipped := None;
     cr_component := Some (comp_id c);
     cr_environmentReconcile := Some (er_reconcileId envRecon);
     cr_organization := org_id org |}.

(** The component row after its latest-run reference was reassigned. *)
Definition withLatest (c : Component) (r : ComponentReconcile) : Component :=
  {| comp_id := comp_id c; comp_name := comp_name c;
     comp_isDeleted := comp_isDeleted c;
     comp_environment := comp_environment c;
     latestCompRecon := Some (clearComponent r) |}.

(** [envWithComps.components.filter((c) => !c.isDeleted)] on the store. *)
Definition liveComponents (st : Store) (env : Environment) : list Component :=
  List.filter (λ c, negb (comp_isDeleted c))
    (map_to_list
       (filter (λ kc, comp_environment kc.2 = env_id env) (componentRepo st))).*2.

(** Every component row sits under its own id. *)
Definition keyed (st : Store) : Prop :=
  map_Forall (λ k c, comp_id c = k) (componentRepo st).

(** Row [r] under key [rid] was added between [st] and [st']. *)
Definition isNew (st st' : Store) (rid : Z) (r : ComponentReconcile) : Prop :=
  compReconRepo st !! rid = None ∧ compReconRepo st' !! rid = Some r.

(** The row a callback has saved so far. *)
Definition rowOf (p : Progress) : option ComponentReconcile :=
  match p with
  | Started => None
  | Saved r => Some r
  | Done saved _ => saved
  end.

Definition rows (tasks : list (Component * Progress)) : list ComponentReconcile :=
  omap (λ t, rowOf t.2) tasks.

Definition isDone (t : Component * Progress) : Prop :=
  match t.2 with Done _ _ => True | _ => False end.

(** What the progress of a callback says about the calls made for its
    component. *)
Definition consistent (flt : Faults) (org : Organization)
    (envRecon : EnvironmentReconcile) (t : Component * Progress) : Prop :=
  match t.2 with
  | Started => True
  | Saved r =>
      compReconSaveFails flt (comp_id t.1) = false
      ∧ r = pendingRow org envRecon t.1 (cr_reconcileId r)
  | Done None outcome =>
      compReconSaveFails flt (comp_id t.1) = true ∧ outcome = Rejected
  | Done (Some r) outcome =>
      compReconSaveFails flt (comp_id t.1) = false
      ∧ r = pendingRow org envRecon t.1 (cr_reconcileId r)
      ∧ outcome = (if compUpdateFails flt (comp_id t.1) then Rejected
                   else Fulfilled (withLatest t.1 r))
  end.

Lemma fresh_lookup_None {V} (m : gmap Z V) : m !! fresh (dom m) = None.
Proof. apply not_elem_of_dom, is_fresh. Qed.

(** One answered call: which table it writes, and how the callback moves
    on. *)
Lemma stepTask_effect flt org er st c p :
  let st1 := (stepTask flt org er st c p).1 in
  let p1 := (stepTask flt org er st c p).2 in
  envReconRepo st1 = envReconRepo st
  ∧ match p with
    | Started =>
        componentRepo st1 = componentRepo st
        ∧ (if compReconSaveFails flt (comp_id c)
           then compReconRepo st1 = compReconRepo st ∧ p1 = Done None Rejected
           else
             let rid := fresh (dom (compReconRepo st)) in
             compReconRepo st1 = <[rid := pendingRow org er c rid]> (compReconRepo st)
             ∧ p1 = Saved (pendingRow org er c rid))
    | Saved r =>
        compReconRepo st1 = compReconRepo st
        ∧ (if compUpdateFails flt (comp_id c)
           then componentRepo st1 = componentRepo st ∧ p1 = Done (Some r) Rejected
           else
             componentRepo st1 = <[comp_id c := withLatest c r]> (componentRepo st)
             ∧ p1 = Done (Some r) (Fulfilled (withLatest c r)))
    | Done _ _ => st1 = st ∧ p1 = p
    end.
Proof.
  destruct p as [|r|saved o]; simpl.
  - unfold ReconciliationService.createCompRecon.
    by destruct (compReconSaveFails flt (comp_id c)).
  - unfold ComponentService.update.
    by destruct (compUpdateFails flt (comp_id c)).
  - done.
Qed.

(** Rows held by the callbacks when one of them moves on. *)
Lemma rows_cons t tasks :
  rows (t :: tasks)
  = match rowOf t.2 with Some r => r :: rows tasks | None => rows tasks end.
Proof. done. Qed.

Lemma rows_insert_same tasks i c p p' :
  tasks !! i = Some (c, p) → rowOf p' = rowOf p →
  rows (<[i := (c, p')]> tasks) = rows tasks.
Proof.
  revert i. induction tasks as [|t tasks IH]; intros [|i] Hi Hrow; try done.
  - injection Hi as ->. change (<[0%nat := (c, p')]> ((c, p) :: tasks))
      with ((c, p') :: tasks). rewrite !rows_cons. simpl. by rewrite Hrow.
  - change (<[S i := (c, p')]> (t :: tasks)) with (t :: <[i := (c, p')]> tasks).
    rewrite !rows_cons, (IH i); done.
Qed.

Lemma rows_insert_new tasks i c p p' r :
  tasks !! i = Some (c, p) → rowOf p = None → rowOf p' = Some r →
  (∀ x, x ∈ rows (<[i := (c, p')]> tasks) ↔ x = r ∨ x ∈ rows tasks)
  ∧ length (rows (<[i := (c, p')]> tasks)) = S (length (rows tasks)).
Proof.
  revert i. induction tasks as [|t tasks IH]; intros [|i] Hi Hnone Hsome; try done.
  - injection Hi as ->. change (<[0%nat := (c, p')]> ((c, p) :: tasks))
      with ((c, p') :: tasks). rewrite !rows_cons. simpl. rewrite Hnone, Hsome.
    split; [|done]. intros x. by rewrite elem_of_cons.
  - destruct (IH i Hi Hnone Hsome) as [Hel Hlen].
    change (<[S i := (c, p')]> (t :: tasks)) with (t :: <[i := (c, p')]> tasks).
    rewrite !rows_cons. destruct (rowOf t.2) as [r0|].
    + split; [|simpl; by rewrite Hlen].
      intros x. rewrite !elem_of_cons, Hel. tauto.
    + done.
Qed.

(** The component-run table during the fan-out: the rows that were there,
    and the rows the callbacks hold. *)
Definition rowsInv (st0 st : Store) (tasks : list (Component * Progress)) : Prop :=
  envReconRepo st = envReconRepo st0
  ∧ (∀ r, r ∈ rows tasks → compReconRepo st0 !! cr_reconcileId r = None)
  ∧ (∀ k r, compReconRepo st !! k = Some r
       ↔ (r ∈ rows tasks ∧ cr_reconcileId r = k) ∨ compReconRepo st0 !! k = Some r)
  ∧ size (compReconRepo st) = (length (rows tasks) + size (compReconRepo st0))%nat.

(** The row whose reference an accepted [update] has stored. *)
Definition latestOf (p : Progress) : option ComponentReconcile :=
  match p with
  | Done (Some r) (Fulfilled _) => Some r
  | _ => None
  end.

(** The component table during the fan-out: a row is written only by the
    callback of its component, and only by an accepted [update]. *)
Definition compInv (st0 st : Store) (tasks : list (Component * Progress)) : Prop :=
  (∀ k, k ∉ comp_id <$> tasks.*1 → componentRepo st !! k = componentRepo st0 !! k)
  ∧ ∀ i c p, tasks !! i = Some (c, p) →
      componentRepo st !! comp_id c
      = match latestOf p with
        | Some r => Some (withLatest c r)
        | None => componentRepo st0 !! comp_id c
        end.

Lemma insert_components (tasks : list (Component * Progress)) i c p p' :
  tasks !! i = Some (c, p) → (<[i := (c, p')]> tasks).*1 = tasks.*1.
Proof.
  intros Hi. rewrite list_fmap_insert. simpl. apply list_insert_id.
  by rewrite list_lookup_fmap, Hi.
Qed.

Lemma step_rows flt org er st0 st tasks i c p :
  tasks !! i = Some (c, p) →
  Forall (consistent flt org er) tasks → rowsInv st0 st tasks →
  Forall (consistent flt org er)
    (<[i := (c, (stepTask flt org er st c p).2)]> tasks)
  ∧ rowsInv st0 (stepTask flt org er st c p).1
      (<[i := (c, (stepTask flt org er st c p).2)]> tasks).
Proof.
  intros Hi Hcons (He & Hfresh & Hrows & Hsize).
  pose proof (stepTask_effect flt org er st c p) as [He1 Hstep].
  destruct (stepTask flt org er st c p) as [st1 p1]. simpl in He1, Hstep |- *.
  assert (Hp : consistent flt org er (c, p)).
  { eapply Forall_lookup_1 in Hcons; [|exact Hi]. done. }
  destruct p as [|r|saved o].
  - destruct Hstep as [_ Hstep].
    destruct (compReconSaveFails flt (comp_id c)) eqn:Hfail.
    + destruct Hstep as [Hrepo ->]. split.
      * apply Forall_insert; [done|]. by unfold consistent; simpl.
      * unfold rowsInv. rewrite (rows_insert_same _ _ _ Started) by done.
        rewrite He1, Hrepo. done.
    + simpl in Hstep. destruct Hstep as [Hrepo ->].
      set (rid := fresh (dom (compReconRepo st))) in *.
      set (row := pendingRow org er c rid) in *.
      pose proof (fresh_lookup_None (compReconRepo st)) as Hnone. fold rid in Hnone.
      destruct (rows_insert_new tasks i c Started (Saved row) row Hi eq_refl eq_refl)
        as [Hel Hlen].
      split.
      * apply Forall_insert; [done|]. by unfold consistent; simpl.
      * unfold rowsInv. rewrite He1, Hrepo, Hlen. split_and!.
        -- done.
        -- intros x [->|Hx]%Hel; [|by apply Hfresh]. simpl.
           destruct (compReconRepo st0 !! rid) as [old|] eqn:Hold; [|done].
           assert (compReconRepo st !! rid = Some old) by (apply Hrows; by right).
           congruence.
        -- intros k x. rewrite lookup_insert_Some, Hrows, Hel. split.
           ++ intros [[<- <-]|[Hne [[Hx Hk]|Hold]]].
              ** left. split; [by left | done].
              ** left. split; [by right | done].
              ** by right.
           ++ intros [[[->|Hx] Hk]|Hold].
              ** left. done.
              ** right. split; [|by left]. intros <-.
                 assert (compReconRepo st !! rid = Some x) by (apply Hrows; by left).
                 congruence.
              ** right. split; [|by right]. intros <-.
                 assert (compReconRepo st !! rid = Some x) by (apply Hrows; by right).
                 congruence.
        -- rewrite map_size_insert_None by done. simpl. lia.
  - destruct Hstep as [Hrepo Hstep]. destruct Hp as [Hok Hr]. simpl in Hok, Hr.
    assert (Hnext : p1
      = Done (Some r) (if compUpdateFails flt (comp_id c) then Rejected
                       else Fulfilled (withLatest c r))).
    { by destruct (compUpdateFails flt (comp_id c)); destruct Hstep as [_ ->]. }
    rewrite Hnext. split.
    + apply Forall_insert; [done|]. by unfold consistent; simpl.
    + unfold rowsInv. rewrite (rows_insert_same _ _ _ (Saved r)) by done.
      rewrite He1, Hrepo. done.
  - destruct Hstep as [-> ->]. rewrite list_insert_id by done. done.
Qed.

Lemma step_components flt org er st0 st tasks i c p :
  tasks !! i = Some (c, p) → NoDup (comp_id <$> tasks.*1) →
  compInv st0 st tasks →
  compInv st0 (stepTask flt org er st c p).1
    (<[i := (c, (stepTask flt org er st c p).2)]> tasks).
Proof.
  intros Hi Hnd [Hout Hin].
  pose proof (stepTask_effect flt org er st c p) as [_ Hstep].
  destruct (stepTask flt org er st c p) as [st1 p1]. simpl in Hstep |- *.
  assert (Hother : ∀ j c' p', j ≠ i → tasks !! j = Some (c', p') →
            comp_id c' ≠ comp_id c).
  { intros j c' p' Hne Hj Heq. apply Hne.
    eapply (NoDup_lookup (comp_id <$> tasks.*1)); [done | |].
    - by rewrite !list_lookup_fmap, Hj.
    - rewrite !list_lookup_fmap, Hi. simpl. by rewrite Heq. }
  assert (Hsame : componentRepo st1 = componentRepo st →
    latestOf p1 = latestOf p → compInv st0 st1 (<[i := (c, p1)]> tasks)).
  { intros Hrepo Hkeep. split.
    - intros k Hk. rewrite Hrepo. apply Hout.
      by rewrite (insert_components _ _ _ p) in Hk.
    - intros j c' p' Hj. rewrite Hrepo.
      apply list_lookup_insert_Some in Hj as [(-> & [= <- <-] & _)|[Hne Hj]].
      + rewrite Hkeep. by eapply Hin.
      + by apply (Hin j). }
  destruct p as [|r|saved o].
  - destruct Hstep as [Hrepo Hstep]. apply Hsame; [done|].
    destruct (compReconSaveFails flt (comp_id c)); destruct Hstep as [_ ->]; done.
  - destruct Hstep as [_ Hstep].
    destruct (compUpdateFails flt (comp_id c)).
    + destruct Hstep as [Hrepo ->]. by apply Hsame.
    + destruct Hstep as [Hrepo ->]. split.
      * intros k Hk. rewrite Hrepo.
        rewrite (insert_components _ _ _ (Saved r)) in Hk by done.
        rewrite lookup_insert_ne; [by apply Hout|].
        intros <-. apply Hk. apply list_elem_of_fmap. exists c. split; [done|].
        apply list_elem_of_fmap. exists (c, Saved r). split; [done|].
        by eapply list_elem_of_lookup_2.
      * intros j c' p' Hj. rewrite Hrepo.
        apply list_lookup_insert_Some in Hj as [(-> & [= <- <-] & _)|[Hne Hj]].
        -- apply lookup_insert_eq.
        -- rewrite lookup_insert_ne; [by apply (Hin j)|].
           intros Heq. by apply (Hother j c' p').
  - destruct Hstep as [-> ->]. by apply Hsame.
Qed.

(** *** Any schedule *)

Lemma runSchedule_step flt org er i sched st tasks c p :
  tasks !! i = Some (c, p) →
  runSchedule flt org er (i :: sched) st tasks
  = runSchedule flt org er sched (stepTask flt org er st c p).1
      (<[i := (c, (stepTask flt org er st c p).2)]> tasks).
Proof. intros Hi. simpl. rewrite Hi. by destruct (stepTask flt org er st c p). Qed.

Lemma runSchedule_skip flt org er i sched st tasks :
  tasks !! i = None →
  runSchedule flt org er (i :: sched) st tasks
  = runSchedule flt org er sched st tasks.
Proof. intros Hi. simpl. by rewrite Hi. Qed.

(** The invariants hold along every schedule. *)
Lemma runSchedule_inv flt org er st0 sched st tasks :
  Forall (consistent flt org er) tasks → rowsInv st0 st tasks →
  Forall (consistent flt org er) (runSchedule flt org er sched st tasks).2
  ∧ rowsInv st0 (runSchedule flt org er sched st tasks).1
      (runSchedule flt org er sched st tasks).2
  ∧ (runSchedule flt org er sched st tasks).2.*1 = tasks.*1
  ∧ (NoDup (comp_id <$> tasks.*1) → compInv st0 st tasks →
     compInv st0 (runSchedule flt org er sched st tasks).1
       (runSchedule flt org er sched st tasks).2).
Proof.
  revert st tasks. induction sched as [|i sched IH]; intros st tasks Hcons Hrows.
  { done. }
  destruct (tasks !! i) as [[c p]|] eqn:Hi.
  - rewrite (runSchedule_step _ _ _ _ _ _ _ c p Hi).
    destruct (step_rows flt org er st0 st tasks i c p Hi Hcons Hrows) as [Hcons1 Hrows1].
    destruct (IH _ _ Hcons1 Hrows1) as (Hc & Hr & Hfst & Hcomp).
    rewrite (insert_components _ _ _ p) in Hfst, Hcomp by done.
    split_and!; try done.
    intros Hnd Hinv. apply Hcomp; [done|]. by apply step_components.
  - rewrite runSchedule_skip by done. by apply IH.
Qed.

(** How far a callback has got: 0, 1 or 2 answered calls' worth. *)
Definition rank (p : Progress) : nat :=
  match p with Started => 0 | Saved _ => 1 | Done _ _ => 2 end.

Lemma stepTask_rank flt org er st c p :
  ((rank p + 1) `min` 2 ≤ rank (stepTask flt org er st c p).2)%nat.
Proof.
  pose proof (stepTask_effect flt org er st c p) as [_ Hstep].
  destruct (stepTask flt org er st c p) as [st1 p1]. simpl in Hstep |- *.
  destruct p as [|r|saved o].
  - destruct Hstep as [_ Hstep].
    destruct (compReconSaveFails flt (comp_id c)); destruct Hstep as [_ ->];
      simpl; lia.
  - destruct Hstep as [_ Hstep].
    destruct (compUpdateFails flt (comp_id c)); destruct Hstep as [_ ->];
      simpl; lia.
  - destruct Hstep as [_ ->]. simpl. lia.
Qed.

(** Every turn given to a callback takes it one call further. *)
Lemma runSchedule_rank flt org er sched st tasks i c p :
  tasks !! i = Some (c, p) →
  ∃ p', (runSchedule flt org er sched st tasks).2 !! i = Some (c, p')
        ∧ ((rank p + count_occ Nat.eq_dec sched i) `min` 2 ≤ rank p')%nat.
Proof.
  revert st tasks p. induction sched as [|j sched IH]; intros st tasks p Hi.
  { exists p. split; [done|]. simpl. lia. }
  destruct (tasks !! j) as [[cj pj]|] eqn:Hj.
  - rewrite (runSchedule_step _ _ _ _ _ _ _ cj pj Hj).
    destruct (decide (j = i)) as [->|Hne].
    + rewrite Hi in Hj. injection Hj as <- <-.
      pose proof (stepTask_rank flt org er st c p) as Hrank.
      destruct (IH (stepTask flt org er st c p).1
                  (<[i := (c, (stepTask flt org er st c p).2)]> tasks)
                  (stepTask flt org er st c p).2) as (p' & Hp' & Hle).
      { apply list_lookup_insert_eq. by eapply lookup_lt_Some. }
      exists p'. split; [done|].
      rewrite count_occ_cons_eq by done. lia.
    + destruct (IH (stepTask flt org er st cj pj).1
                  (<[j := (cj, (stepTask flt org er st cj pj).2)]> tasks) p)
        as (p' & Hp' & Hle).
      { by rewrite list_lookup_insert_ne. }
      exists p'. split; [done|].
      by rewrite count_occ_cons_neq.
  - rewrite runSchedule_skip by done.
    destruct (IH st tasks p Hi) as (p' & Hp' & Hle).
    exists p'. split; [done|].
    rewrite count_occ_cons_neq; [done|]. intros ->. congruence.
Qed.

(** The fan-out up to the point where [allSettled] resolves. *)
Definition settle (flt : Faults) (org : Organization)
    (envRecon : EnvironmentReconcile) (sched : list nat)
    (live : list Component) (st : Store)
    : Store * list (Component * Progress) :=
  runSchedule flt org envRecon
    (sched ++ seq 0 (length live) ++ seq 0 (length live)) st
    ((λ c, (c, Started)) <$> live).

Lemma allSettled_store flt org er sched live st :
  (allSettled flt org er sched live st).1 = (settle flt org er sched live st).1.
Proof.
  unfold allSettled, settle. by destruct (runSchedule _ _ _ _ _ _).
Qed.

Lemma rows_started (live : list Component) :
  rows ((λ c, (c, Started)) <$> live) = [].
Proof. induction live as [|c live IH]; [done|]. by rewrite fmap_cons, rows_cons. Qed.

Lemma settle_spec flt org er sched live st :
  Forall (consistent flt org er) (settle flt org er sched live st).2
  ∧ Forall isDone (settle flt org er sched live st).2
  ∧ rowsInv st (settle flt org er sched live st).1 (settle flt org er sched live st).2
  ∧ (settle flt org er sched live st).2.*1 = live
  ∧ (NoDup (comp_id <$> live) →
     compInv st (settle flt org er sched live st).1 (settle flt org er sched live st).2).
Proof.
  unfold settle.
  set (tasks0 := (λ c, (c, Started)) <$> live).
  set (full := sched ++ seq 0 (length live) ++ seq 0 (length live)).
  assert (Hfst : tasks0.*1 = live).
  { unfold tasks0. rewrite <- list_fmap_compose. apply list_fmap_id. }
  assert (Hcons0 : Forall (consistent flt org er) tasks0).
  { apply Forall_fmap, Forall_forall. by intros c _. }
  assert (Hrows0 : rowsInv st st tasks0).
  { unfold rowsInv, tasks0. rewrite rows_started. split_and!; try done.
    - by intros r ?%elem_of_nil.
    - intros k r. split; [by right | intros [[?%elem_of_nil _]|?]; done]. }
  destruct (runSchedule_inv flt org er st full st tasks0 Hcons0 Hrows0)
    as (Hc & Hr & Hf & Hcomp).
  rewrite Hfst in Hf, Hcomp.
  split_and!; try done.
  - apply Forall_lookup. intros i [c p'] Hi.
    assert (Hc0 : tasks0 !! i = Some (c, Started)).
    { assert (Hl : (runSchedule flt org er full st tasks0).2.*1 !! i = Some c).
      { by rewrite list_lookup_fmap, Hi. }
      rewrite Hf in Hl. unfold tasks0. by rewrite list_lookup_fmap, Hl. }
    destruct (runSchedule_rank flt org er full st tasks0 i c Started Hc0)
      as (p'' & Hp'' & Hle).
    rewrite Hi in Hp''. injection Hp'' as <-.
    assert (Hocc : (0 < count_occ Nat.eq_dec (seq 0 (length live)) i)%nat).
    { apply count_occ_In, in_seq. apply lookup_lt_Some in Hc0.
      unfold tasks0 in Hc0. rewrite length_fmap in Hc0. lia. }
    unfold full in Hle. rewrite !count_occ_app in Hle. simpl in Hle.
    unfold isDone. simpl. destruct p'; simpl in Hle; [lia | lia | done].
  - intros Hnd. apply Hcomp; [done|]. split; [done|].
    intros i c p Hi. unfold tasks0 in Hi. rewrite list_lookup_fmap in Hi.
    destruct (live !! i); simpl in Hi; [|done]. by injection Hi as <- <-.
Qed.

(** Once every callback has settled, the rows held are those of the
    components whose save was accepted, in order. *)
Lemma done_rows flt org er tasks :
  Forall (consistent flt org er) tasks → Forall isDone tasks →
  Forall2 (λ c r, r = pendingRow org er c (cr_reconcileId r))
    (List.filter (λ c, negb (compReconSaveFails flt (comp_id c))) tasks.*1)
    (rows tasks).
Proof.
  induction tasks as [|[c p] tasks IH]; intros Hcons Hdone; [constructor|].
  apply Forall_cons in Hcons as [Hc Hcons]. apply Forall_cons in Hdone as [Hd Hdone].
  rewrite fmap_cons, rows_cons. simpl.
  destruct p as [|r|[r|] o]; try done; unfold consistent in Hc; simpl in Hc.
  - destruct Hc as (-> & Hr & _). simpl. constructor; [done | by apply IH].
  - destruct Hc as (-> & _). simpl. by apply IH.
Qed.

Lemma rows_elem tasks i c p r :
  tasks !! i = Some (c, p) → rowOf p = Some r → r ∈ rows tasks.
Proof.
  revert i. induction tasks as [|t tasks IH]; intros [|i] Hi Hr; try done.
  - injection Hi as ->. rewrite rows_cons. simpl. rewrite Hr. left.
  - rewrite rows_cons. destruct (rowOf t.2); [right|]; by apply (IH i).
Qed.

Lemma liveComponents_elem st env c :
  keyed st →
  c ∈ liveComponents st env
  ↔ componentRepo st !! comp_id c = Some c
    ∧ comp_environment c = env_id env ∧ comp_isDeleted c = false.
Proof.
  intros Hk. unfold liveComponents.
  rewrite list_elem_of_In, List.filter_In, <- list_elem_of_In, negb_true_iff.
  rewrite list_elem_of_fmap. split.
  - intros [([k c'] & -> & Hin) Hd]. simpl in *.
    apply elem_of_map_to_list, map_lookup_filter_Some in Hin as [Hl He].
    simpl in He. rewrite (Hk _ _ Hl). done.
  - intros (Hl & He & Hd). split; [|done].
    exists (comp_id c, c). split; [done|].
    by apply elem_of_map_to_list, map_lookup_filter_Some.
Qed.

Lemma liveComponents_NoDup st env :
  keyed st → NoDup (comp_id <$> liveComponents st env).
Proof.
  intros Hk. unfold liveComponents. apply filter_fmap_NoDup.
  set (l := map_to_list _).
  assert (Heq : comp_id <$> l.*2 = l.*1).
  { rewrite <- list_fmap_compose. apply Forall_fmap_ext_1, Forall_forall.
    intros [k c] Hin. simpl.
    apply elem_of_map_to_list, map_lookup_filter_Some in Hin as [Hl _].
    by apply Hk. }
  rewrite Heq. apply NoDup_fst_map_to_list.
Qed.

Lemma created_elem org er cs created r :
  Forall2 (λ c r, r = pendingRow org er c (cr_reconcileId r)) cs created →
  r ∈ created → ∃ c, c ∈ cs ∧ r = pendingRow org er c (cr_reconcileId r).
Proof.
  induction 1 as [|c r0 cs created Hr _ IH]; intros Hin.
  - by apply elem_of_nil in Hin.
  - apply elem_of_cons in Hin as [->|Hin].
    + exists c. split; [left | done].
    + destruct (IH Hin) as (c' & Hc' & Heq). exists c'. split; [by right | done].
Qed.

Lemma created_unique org er cs created r1 r2 :
  Forall2 (λ c r, r = pendingRow org er c (cr_reconcileId r)) cs created →
  NoDup (comp_id <$> cs) → r1 ∈ created → r2 ∈ created →
  cr_component r1 = cr_component r2 → r1 = r2.
Proof.
  induction 1 as [|c r0 cs created Hr HF IH]; intros Hnd H1 H2 Heq.
  { by apply elem_of_nil in H1. }
  rewrite fmap_cons in Hnd. apply NoDup_cons in Hnd as [Hnotin Hnd].
  assert (Hother : ∀ r, r ∈ created → cr_component r ≠ cr_component r0).
  { intros r Hin Hc. destruct (created_elem _ _ _ _ _ HF Hin) as (c' & Hc' & Hr').
    rewrite Hr, Hr' in Hc. simpl in Hc. apply Hnotin.
    injection Hc as <-. by apply list_elem_of_fmap_2. }
  apply elem_of_cons in H1 as [->|H1]; apply elem_of_cons in H2 as [->|H2].
  - done.
  - exfalso. by apply (Hother r2).
  - exfalso. by apply (Hother r1).
  - by apply IH.
Qed.

(** The row [ReconciliationService.createEnvRecon] saves under key [rid]
    when the controller calls it at time [now]. *)
Definition initialRow (now : Z) (org : Organization) (team : Team)
    (env : Environment) (createEnv : CreateEnvironmentDto) (rid : Z)
    : EnvironmentReconcile :=
  {| er_reconcileId := rid;
     er_status := "initializing";
     er_dag := ce_dag createEnv;
     er_startDateTime := Some now;
     er_endDateTime := None;
     er_errorMessage := None;
     er_gitSha := "";
     er_estimatedCost := 0%float;
     er_environment := Some (env_id env);
     er_team := team_id team;
     er_organization := org_id org |}.

Lemma createEnvRecon_run flt now sched st org team env createEnv :
  envReconSaveFails flt = false → findByIdFails flt = false →
  let rid := fresh (dom (envReconRepo st)) in
  let envRecon := initialRow now org team env createEnv rid in
  let st1 :=
    {| envReconRepo := <[rid := envRecon]> (envReconRepo st);
       compReconRepo := compReconRepo st;
       componentRepo := componentRepo st |} in
  createEnvRecon flt now sched st org team env createEnv
  = ((settle flt org envRecon sched (liveComponents st env) st1).1,
     Fulfilled envRecon).
Proof.
  intros Hs Hf. unfold createEnvRecon, ReconciliationService.createEnvRecon,
    EnvironmentService.findById. rewrite Hs, Hf. simpl.
  fold (liveComponents st env).
  change (mkEnvRecon _ _ _ _ _ _ _ _ _ _ _)
    with (initialRow now org team env createEnv (fresh (dom (envReconRepo st)))).
  rewrite <- allSettled_store. by destruct (allSettled _ _ _ _ _ _).
Qed.

(** Everything the claims on the fan-out need, in one place, for every
    order in which the store answers. *)
Lemma createEnvRecon_spec flt now sched st org team env createEnv :
  keyed st → envReconSaveFails flt = false → findByIdFails flt = false →
  ∃ st' envRecon,
    createEnvRecon flt now sched st org team env createEnv = (st', Fulfilled envRecon)
    ∧ er_status envRecon = "initializing"
    ∧ envReconRepo st !! er_reconcileId envRecon = None
    ∧ envReconRepo st' !! er_reconcileId envRecon = Some envRecon
    ∧ (∀ rid r, compReconRepo st !! rid = Some r → compReconRepo st' !! rid = Some r)
    ∧ (∀ rid r, isNew st st' rid r →
         ∃ c, c ∈ liveComponents st env
              ∧ compReconSaveFails flt (comp_id c) = false
              ∧ r = pendingRow org envRecon c rid)
    ∧ (∀ c, c ∈ liveComponents st env →
         compReconSaveFails flt (comp_id c) = false →
         ∃ rid,
           isNew st st' rid (pendingRow org envRecon c rid)
           ∧ (∀ rid' r', isNew st st' rid' r' →
                cr_component r' = Some (comp_id c) → rid' = rid)
           ∧ componentRepo st' !! comp_id c
             = Some (if compUpdateFails flt (comp_id c) then c
                     else withLatest c (pendingRow org envRecon c rid)))
    ∧ (∀ c, c ∈ liveComponents st env →
         compReconSaveFails flt (comp_id c) = true →
         componentRepo st' !! comp_id c = Some c)
    ∧ size (compReconRepo st')
      = (size (compReconRepo st)
         + length (List.filter (λ c, negb (compReconSaveFails flt (comp_id c)))
                     (liveComponents st env)))%nat
    ∧ (∀ k, k ∉ comp_id <$> liveComponents st env →
         componentRepo st' !! k = componentRepo st !! k).
Proof.
  intros Hk Hs Hf.
  pose proof (createEnvRecon_run flt now sched st org team env createEnv Hs Hf) as Hrun.
  simpl in Hrun.
  set (rid0 := fresh (dom (envReconRepo st))) in *.
  set (er := initialRow now org team env createEnv rid0) in *.
  set (st1 := mkStore _ _ _) in *.
  set (live := liveComponents st env) in *.
  pose proof (liveComponents_NoDup st env Hk) as Hnd. fold live in Hnd.
  destruct (settle_spec flt org er sched live st1)
    as (Hcons & Hdone & (He & Hfresh & Hrows & Hsz) & Hfst & Hcomp).
  destruct (Hcomp Hnd) as [Hout Hin]. clear Hcomp.
  pose proof (done_rows flt org er _ Hcons Hdone) as Ha. rewrite Hfst in Ha.
  set (st' := (settle flt org er sched live st1).1) in *.
  set (tasks := (settle flt org er sched live st1).2) in *.
  simpl in He, Hfresh, Hrows, Hsz, Hout, Hin.
  assert (Hnew : ∀ rid r, isNew st st' rid r ↔ r ∈ rows tasks ∧ cr_reconcileId r = rid).
  { intros rid r. unfold isNew. rewrite Hrows. split.
    - intros [Hnone [Hr|Hold]]; [done | congruence].
    - intros [Hr <-]. split; [by apply Hfresh | by left]. }
  assert (Htask : ∀ c, c ∈ live → ∃ i p, tasks !! i = Some (c, p)).
  { intros c Hc. rewrite <- Hfst in Hc.
    apply list_elem_of_fmap in Hc as ([c' p] & -> & Ht).
    apply list_elem_of_lookup in Ht as [i Hi]. by exists i, p. }
  assert (Hrow0 : ∀ c, c ∈ live → componentRepo st !! comp_id c = Some c).
  { intros c Hc. by apply (liveComponents_elem st env c Hk) in Hc as (? & _). }
  exists st', er. split_and!.
  - exact Hrun.
  - done.
  - apply fresh_lookup_None.
  - rewrite He. simpl. apply lookup_insert_eq.
  - intros rid r Hold. apply Hrows. by right.
  - intros rid r [Hr <-]%Hnew.
    destruct (created_elem _ _ _ _ _ Ha Hr) as (c & Hc' & Heq).
    apply elem_of_List_filter in Hc' as [Hlive Hok].
    apply negb_true_iff in Hok. by exists c.
  - intros c Hlive Hok.
    destruct (Htask c Hlive) as (i & p & Hi).
    pose proof (Forall_lookup_1 _ _ _ _ Hcons Hi) as Hc.
    pose proof (Forall_lookup_1 _ _ _ _ Hdone Hi) as Hd.
    specialize (Hin i c p Hi).
    destruct p as [|r|[r|] o]; try done; unfold consistent in Hc; simpl in Hc;
      [|destruct Hc; congruence].
    destruct Hc as (_ & Hr & Ho).
    assert (Hrin : r ∈ rows tasks) by (by eapply rows_elem).
    exists (cr_reconcileId r). rewrite <- Hr. split_and!.
    + by apply Hnew.
    + intros rid' r' [Hr' <-]%Hnew Hcr. f_equal.
      eapply created_unique; [exact Ha | | done | done |].
      * by apply filter_fmap_NoDup.
      * rewrite Hcr, Hr. done.
    + rewrite Hin, Ho. destruct (compUpdateFails flt (comp_id c)); simpl; [|done].
      by apply Hrow0.
  - intros c Hlive Hfail.
    destruct (Htask c Hlive) as (i & p & Hi).
    pose proof (Forall_lookup_1 _ _ _ _ Hcons Hi) as Hc.
    pose proof (Forall_lookup_1 _ _ _ _ Hdone Hi) as Hd.
    specialize (Hin i c p Hi).
    destruct p as [|r|[r|] o]; try done; unfold consistent in Hc; simpl in Hc;
      [destruct Hc; congruence|].
    destruct Hc as [_ ->]. rewrite Hin. simpl. by apply Hrow0.
  - rewrite Hsz. apply Forall2_length in Ha. rewrite <- Ha. lia.
  - intros k Hnotin. apply Hout. by rewrite Hfst.
Qed.

(** *** A concrete environment: three live components, one soft-deleted,
    and one component of another environment *)

Definition comp_vpc : Component := mkComponent 1 "vpc" false 7 None.
Definition comp_db : Component := mkComponent 2 "db" false 7 None.
Definition comp_old : Component := mkComponent 3 "old" true 7 None.
Definition comp_app : Component := mkComponent 4 "app" false 7 None.
Definition comp_other : Component := mkComponent 5 "other" false 8 None.

Definition st0 : Store :=
  {| envReconRepo := ∅;
     compReconRepo := ∅;
     componentRepo :=
       list_to_map [(1, comp_vpc); (2, comp_db); (3, comp_old); (4, comp_app);
                    (5, comp_other)] |}.

Definition org0 : Organization := mkOrg 1 "acme".
Definition team0 : Team := mkTeam 1 "core".
Definition env7 : Environment := mkEnvironment 7 "prod" [] false [] None.
Definition dto0 : CreateEnvironmentDto := mkCreateEnv "prod" [].

(** The save of the run of component 2 ("db") is rejected, nothing else. *)
Definition dbFails : Faults :=
  {| envReconSaveFails := false; findByIdFails := false;
     compReconSaveFails := λ k, Z.eqb k 2; compUpdateFails := λ _, false |}.

Lemma keyed_st0 : keyed st0.
Proof.
  unfold keyed. apply map_Forall_to_list, Forall_forall.
  intros [k c] Hin. vm_compute in Hin.
  repeat (apply elem_of_cons in Hin as [Hin|Hin]; [by inversion Hin|]).
  by apply elem_of_nil in Hin.
Defined.

(** C3. With the store accepting every call, and in whatever order it
    answers the calls of the fan-out, starting an environment run saves one
    new [EnvironmentReconcile] with status [initializing] and,
    for every live component of the environment, exactly one new
    [ComponentReconcile], with status [waiting_for_parent] and linked to
    that run; every new row belongs to a live component, so the table
    grows by the number of live components, and a soft-deleted component
    gets no row and its own row is left as it was. *)
Theorem createEnvRecon_one_per_live flt now sched st org team env createEnv :
  keyed st → envReconSaveFails flt = false → findByIdFails flt = false →
  (∀ c, c ∈ liveComponents st env → compReconSaveFails flt (comp_id c) = false) →
  ∃ st' envRecon,
    createEnvRecon flt now sched st org team env createEnv = (st', Fulfilled envRecon)
    ∧ er_status envRecon = "initializing"
    ∧ envReconRepo st !! er_reconcileId envRecon = None
    ∧ envReconRepo st' !! er_reconcileId envRecon = Some envRecon
    ∧ (∀ c, componentRepo st !! comp_id c = Some c →
         comp_environment c = env_id env → comp_isDeleted c = false →
         ∃ rid r,
           isNew st st' rid r
           ∧ cr_component r = Some (comp_id c)
           ∧ cr_status r = "waiting_for_parent"
           ∧ cr_environmentReconcile r = Some (er_reconcileId envRecon)
           ∧ ∀ rid' r', isNew st st' rid' r' →
               cr_component r' = Some (comp_id c) → rid' = rid)
    ∧ (∀ rid r, isNew st st' rid r →
         cr_status r = "waiting_for_parent"
         ∧ cr_environmentReconcile r = Some (er_reconcileId envRecon)
         ∧ ∃ c, componentRepo st !! comp_id c = Some c
                ∧ comp_environment c = env_id env
                ∧ comp_isDeleted c = false
                ∧ cr_component r = Some (comp_id c))
    ∧ (∀ rid r, compReconRepo st !! rid = Some r → compReconRepo st' !! rid = Some r)
    ∧ size (compReconRepo st')
      = (size (compReconRepo st) + length (liveComponents st env))%nat
    ∧ (∀ k c, componentRepo st !! k = Some c → comp_isDeleted c = true →
         componentRepo st' !! k = Some c
         ∧ ∀ rid r, isNew st st' rid r → cr_component r ≠ Some k).
Proof.
  intros Hk Hs Hf Hok.
  destruct (createEnvRecon_spec flt now sched st org team env createEnv Hk Hs Hf)
    as (st' & er & Hrun & Hst & Hfresh & Hsaved & Hold & Hnew & Hlive & _ & Hsz & Hrest).
  exists st', er. split_and!; try done.
  - intros c Hrow He Hd.
    assert (Hin : c ∈ liveComponents st env) by (by apply liveComponents_elem).
    destruct (Hlive c Hin (Hok c Hin)) as (rid & Hn & Huniq & _).
    by exists rid, (pendingRow org er c rid).
  - intros rid r Hn. destruct (Hnew rid r Hn) as (c & Hin & _ & ->).
    split_and!; [done | done |]. exists c.
    apply (liveComponents_elem st env c Hk) in Hin as (? & ? & ?). done.
  - rewrite Hsz. f_equal. f_equal. apply filter_all.
    intros c Hin. by rewrite (Hok c Hin).
  - intros k c Hrow Hdel.
    assert (Hnot : ∀ c', c' ∈ liveComponents st env → comp_id c' ≠ k).
    { intros c' Hin <-.
      apply (liveComponents_elem st env c' Hk) in Hin as (Hrow' & _ & Hd').
      congruence. }
    split.
    + rewrite Hrest; [done|].
      intros (c' & -> & Hin)%list_elem_of_fmap. by apply (Hnot c').
    + intros rid r Hn Hc. destruct (Hnew rid r Hn) as (c' & Hin & _ & ->).
      simpl in Hc. injection Hc as Hc. by apply (Hnot c').
Qed.

Lemma createEnvRecon_one_per_live_witness :
  ∃ st' envRecon,
    createEnvRecon noFaults 1000 [2; 0; 2; 1]%nat st0 org0 team0 env7 dto0 = (st', Fulfilled envRecon)
    ∧ size (compReconRepo st') = 3%nat
    ∧ componentRepo st' !! 3 = Some comp_old.
Proof.
  destruct (createEnvRecon_one_per_live noFaults 1000 [2; 0; 2; 1]%nat st0 org0 team0 env7 dto0
              keyed_st0 eq_refl eq_refl (λ _ _, eq_refl))
    as (st' & er & Hrun & _ & _ & _ & _ & _ & _ & Hsz & Hdel).
  exists st', er. split; [exact Hrun|]. split.
  - rewrite Hsz. reflexivity.
  - apply (Hdel 3 comp_old); reflexivity.
Defined.

(** C4. Whatever store calls made for the components are rejected, and in
    whatever order the store answers, the run itself is returned and stays
    saved, no row that was there is removed,
    and every live component whose own save is accepted gets exactly one new
    row and, when its own update is accepted too, its latest-run reference;
    a component whose save is rejected gets no row and keeps its own row. The
    outcome for one component depends on the faults of no other. *)
Theorem createEnvRecon_failures_isolated flt now sched st org team env createEnv :
  keyed st → envReconSaveFails flt = false → findByIdFails flt = false →
  ∃ st' envRecon,
    createEnvRecon flt now sched st org team env createEnv = (st', Fulfilled envRecon)
    ∧ envReconRepo st' !! er_reconcileId envRecon = Some envRecon
    ∧ (∀ rid r, compReconRepo st !! rid = Some r → compReconRepo st' !! rid = Some r)
    ∧ (∀ c, c ∈ liveComponents st env →
         compReconSaveFails flt (comp_id c) = false →
         ∃ rid r,
           isNew st st' rid r
           ∧ cr_component r = Some (comp_id c)
           ∧ cr_status r = "waiting_for_parent"
           ∧ cr_environmentReconcile r = Some (er_reconcileId envRecon)
           ∧ (∀ rid' r', isNew st st' rid' r' →
                cr_component r' = Some (comp_id c) → rid' = rid)
           ∧ componentRepo st' !! comp_id c
             = Some (if compUpdateFails flt (comp_id c) then c
                     else withLatest c r))
    ∧ (∀ c, c ∈ liveComponents st env →
         compReconSaveFails flt (comp_id c) = true →
         componentRepo st' !! comp_id c = Some c
         ∧ ∀ rid r, isNew st st' rid r → cr_component r ≠ Some (comp_id c)).
Proof.
  intros Hk Hs Hf.
  destruct (createEnvRecon_spec flt now sched st org team env createEnv Hk Hs Hf)
    as (st' & er & Hrun & _ & _ & Hsaved & Hold & Hnew & Hlive & Hfail & _ & _).
  exists st', er. split_and!; try done.
  - intros c Hin Hok. destruct (Hlive c Hin Hok) as (rid & Hn & Huniq & Hrow).
    by exists rid, (pendingRow org er c rid).
  - intros c Hin Hbad. split; [by apply Hfail|].
    intros rid r Hn Hc. destruct (Hnew rid r Hn) as (c' & Hin' & Hok' & ->).
    simpl in Hc. injection Hc as Hc. rewrite Hc in Hok'. congruence.
Qed.

Lemma createEnvRecon_failures_isolated_witness :
  ∃ st' envRecon,
    createEnvRecon dbFails 1000 [2; 0; 2; 1]%nat st0 org0 team0 env7 dto0 = (st', Fulfilled envRecon)
    ∧ envReconRepo st' !! er_reconcileId envRecon = Some envRecon
    ∧ (∃ rid r, isNew st0 st' rid r ∧ cr_component r = Some 1)
    ∧ (∃ rid r, isNew st0 st' rid r ∧ cr_component r = Some 4)
    ∧ componentRepo st' !! 2 = Some comp_db.
Proof.
  destruct (createEnvRecon_failures_isolated dbFails 1000 [2; 0; 2; 1]%nat st0 org0 team0 env7 dto0
              keyed_st0 eq_refl eq_refl)
    as (st' & er & Hrun & Hsaved & _ & Hok & Hbad).
  assert (Hlive : ∀ c, componentRepo st0 !! comp_id c = Some c →
            comp_environment c = 7 → comp_isDeleted c = false →
            c ∈ liveComponents st0 env7).
  { intros c H1 H2 H3. by apply (liveComponents_elem st0 env7 c keyed_st0). }
  exists st', er. split_and!; [exact Hrun | exact Hsaved | | |].
  - destruct (Hok comp_vpc (Hlive comp_vpc eq_refl eq_refl eq_refl) eq_refl)
      as (rid & r & Hn & Hc & _). by exists rid, r.
  - destruct (Hok comp_app (Hlive comp_app eq_refl eq_refl eq_refl) eq_refl)
      as (rid & r & Hn & Hc & _). by exists rid, r.
  - apply (Hbad comp_db (Hlive comp_db eq_refl eq_refl eq_refl) eq_refl).
Defined.

(** C10. [createCompRecon] saves the [startDateTime] of its DTO as it is,
    and the DTO the controller builds for each component has none: every
    row a run of [createEnvRecon] adds to the component-run table has
    [startDateTime] unset, in whatever order the store answers, as the rows
    added for the concrete environment above show. *)
Theorem createEnvRecon_no_startDateTime :
  (∀ flt st org envRecon comp createComp st' r,
     ReconciliationService.createCompRecon flt st org envRecon comp createComp
       = (st', Fulfilled r) →
     cr_startDateTime r = ccr_startDateTime createComp
     ∧ compReconRepo st' !! cr_reconcileId r = Some r)
  ∧ (∀ flt now sched st org team env createEnv rid r,
       isNew st (createEnvRecon flt now sched st org team env createEnv).1 rid r →
       cr_startDateTime r = None)
  ∧ (cr_startDateTime <$>
       (map_to_list
          (compReconRepo
             (createEnvRecon noFaults 1000 [2; 0; 2; 1]%nat st0 org0 team0 env7 dto0).1)).*2)
    = [None; None; None].
Proof.
  split_and!.
  - intros flt st org er comp dto st' r.
    unfold ReconciliationService.createCompRecon.
    destruct (compReconSaveFails flt (comp_id comp)); [done|].
    intros [= <- <-]. simpl. split; [done | apply lookup_insert_eq].
  - intros flt now sched st org team env createEnv rid r [Hnone Hsome].
    destruct (envReconSaveFails flt) eqn:Hs.
    { unfold createEnvRecon, ReconciliationService.createEnvRecon in Hsome.
      rewrite Hs in Hsome. simpl in Hsome. congruence. }
    destruct (findByIdFails flt) eqn:Hf.
    { unfold createEnvRecon, ReconciliationService.createEnvRecon,
        EnvironmentService.findById in Hsome.
      rewrite Hs, Hf in Hsome. simpl in Hsome. congruence. }
    rewrite (createEnvRecon_run flt now sched st org team env createEnv Hs Hf) in Hsome.
    simpl in Hsome.
    match type of Hsome with
    | context [settle flt org ?e sched ?l ?s] =>
        destruct (settle_spec flt org e sched l s)
          as (Hcons & Hdone & (_ & _ & Hrows & _) & _ & _);
        pose proof (done_rows flt org e _ Hcons Hdone) as Ha
    end.
    simpl in Hrows. apply Hrows in Hsome as [[Hin _]|Hold]; [|congruence].
    destruct (created_elem _ _ _ _ _ Ha Hin) as (c & _ & ->). done.
  - vm_compute. reflexivity.
Qed.

End EnvironmentController.

(** ** The stale-run sweeper *)

Module Sweeper.

Import ReconciliationService.

(** Modelled from the spec: the callers of the two queries and the two
    bulk updates are not in the files modelled here; a sweep selects with
    the query and bulk-updates the selection to [skipped_reconcile],
    returning how many runs it retired. *)
Definition sweepEnvironment (st : Store) (org : Organization) (team : Team)
    (env : Environment) (keepReconcileIds : list Z) : Store * nat :=
  let entries := getSkippedEnvironments st org team env keepReconcileIds in
  (bulkUpdateEnvironmentEntries st entries "skipped_reconcile", length entries).

Definition sweepComponent (st : Store) (org : Organization)
    (envRecon : EnvironmentReconcile) (comp : Component)
    (keepReconcileIds : list Z) : Store * nat :=
  let entries := getSkippedComponents st org envRecon comp keepReconcileIds in
  (bulkUpdateComponentEntries st entries "skipped_reconcile", length entries).

(** Every run row sits under its own [reconcileId]. *)
Definition envKeyed (st : Store) : Prop :=
  map_Forall (λ k r, er_reconcileId r = k) (envReconRepo st).

Definition compKeyed (st : Store) : Prop :=
  map_Forall (λ k r, cr_reconcileId r = k) (compReconRepo st).

(** The scope of a sweep, as the two queries fix it. *)
Definition envScope (org : Organization) (team : Team) (env : Environment)
    (r : EnvironmentReconcile) : Prop :=
  er_team r = team_id team ∧ er_organization r = org_id org
  ∧ er_environment r = Some (env_id env).

Definition compScope (org : Organization) (envRecon : EnvironmentReconcile)
    (comp : Component) (r : ComponentReconcile) : Prop :=
  cr_component r = Some (comp_id comp)
  ∧ cr_environmentReconcile r = Some (er_reconcileId envRecon)
  ∧ cr_organization r = org_id org.

Section bulk.
Context {V : Type} (key : V → Z) (f : V → V).
Hypothesis key_f : ∀ v, key (f v) = key v.

(** Saving updated copies of rows of [repo0]: a key among the rows gets
    the updated copy, every other key keeps what it had. *)
Lemma saveAll_rows (repo0 : gmap Z V) (rows : list V) (repo : gmap Z V) k :
  (∀ v, v ∈ rows → repo0 !! key v = Some v) →
  saveAll key (f <$> rows) repo !! k
  = if decide (k ∈ key <$> rows) then f <$> (repo0 !! k) else repo !! k.
Proof.
  revert repo. induction rows as [|a rows IH]; intros repo Hrows.
  - rewrite decide_False; [done | apply not_elem_of_nil].
  - unfold saveAll in *. rewrite !fmap_cons. cbn [foldl].
    rewrite IH by (intros v Hv; apply Hrows; by right).
    rewrite key_f. destruct (decide (k ∈ key <$> rows)) as [Hin|Hnin].
    + rewrite decide_True; [done | by right].
    + destruct (decide (k = key a)) as [->|Hne].
      * rewrite decide_True by left. rewrite lookup_insert_eq.
        rewrite (Hrows a) by left. done.
      * rewrite decide_False by (by intros [?|?]%elem_of_cons).
        by rewrite lookup_insert_ne.
Qed.

(** A sweep as a whole: select with [P], save the updated copies. *)
Lemma saveAll_findWhere (P : V → Prop) `{∀ v, Decision (P v)} (repo : gmap Z V) k :
  map_Forall (λ k v, key v = k) repo →
  saveAll key (f <$> findWhere P repo) repo !! k
  = match repo !! k with
    | Some v => Some (if decide (P v) then f v else v)
    | None => None
    end.
Proof.
  intros Hkeyed.
  rewrite (saveAll_rows repo).
  2:{ intros v (k' & Hl & _)%findWhere_elem. by rewrite (Hkeyed _ _ Hl). }
  destruct (repo !! k) as [v|] eqn:Hk.
  - destruct (decide (P v)) as [HP|HP].
    + rewrite decide_True; [done|]. rewrite <- (Hkeyed _ _ Hk).
      apply list_elem_of_fmap_2, findWhere_elem. eauto.
    + rewrite decide_False; [done|].
      intros (v' & Hkv & (k' & Hl & HP')%findWhere_elem)%list_elem_of_fmap.
      rewrite (Hkeyed _ _ Hl) in Hkv. subst k'. congruence.
  - by destruct (decide _).
Qed.
End bulk.

Lemma er_withStatus_key status v :
  er_reconcileId (er_withStatus v status) = er_reconcileId v.
Proof. done. Qed.

Lemma cr_withStatus_key status v :
  cr_reconcileId (cr_withStatus v status) = cr_reconcileId v.
Proof. done. Qed.

Lemma bulkUpdateEnvironmentEntries_repo st entries status :
  envReconRepo (bulkUpdateEnvironmentEntries st entries status)
  = saveAll er_reconcileId ((λ e, er_withStatus e status) <$> entries) (envReconRepo st)
  ∧ compReconRepo (bulkUpdateEnvironmentEntries st entries status) = compReconRepo st
  ∧ componentRepo (bulkUpdateEnvironmentEntries st entries status) = componentRepo st.
Proof.
  unfold bulkUpdateEnvironmentEntries. by destruct entries.
Qed.

Lemma bulkUpdateComponentEntries_repo st entries status :
  compReconRepo (bulkUpdateComponentEntries st entries status)
  = saveAll cr_reconcileId ((λ e, cr_withStatus e status) <$> entries) (compReconRepo st)
  ∧ envReconRepo (bulkUpdateComponentEntries st entries status) = envReconRepo st
  ∧ componentRepo (bulkUpdateComponentEntries st entries status) = componentRepo st.
Proof.
  unfold bulkUpdateComponentEntries. by destruct entries.
Qed.

Lemma sweepEnvironment_lookup st org team env keep k :
  envKeyed st →
  envReconRepo (sweepEnvironment st org team env keep).1 !! k
  = match envReconRepo st !! k with
    | Some r =>
        Some (if decide (skippedEnvironmentsWhere org team env keep r)
              then er_withStatus r "skipped_reconcile" else r)
    | None => None
    end.
Proof.
  intros Hk. unfold sweepEnvironment, getSkippedEnvironments. simpl.
  destruct (bulkUpdateEnvironmentEntries_repo st
    (findWhere (skippedEnvironmentsWhere org team env keep) (envReconRepo st))
    "skipped_reconcile") as (-> & _ & _).
  by apply (saveAll_findWhere er_reconcileId).
Qed.

Lemma sweepComponent_lookup st org envRecon comp keep k :
  compKeyed st →
  compReconRepo (sweepComponent st org envRecon comp keep).1 !! k
  = match compReconRepo st !! k with
    | Some r =>
        Some (if decide (skippedComponentsWhere org envRecon comp keep r)
              then cr_withStatus r "skipped_reconcile" else r)
    | None => None
    end.
Proof.
  intros Hk. unfold sweepComponent, getSkippedComponents. simpl.
  destruct (bulkUpdateComponentEntries_repo st
    (findWhere (skippedComponentsWhere org envRecon comp keep) (compReconRepo st))
    "skipped_reconcile") as (-> & _ & _).
  by apply (saveAll_findWhere cr_reconcileId).
Qed.

(** All fields but [status] agree. *)
Definition er_sameButStatus (a b : EnvironmentReconcile) : Prop :=
  er_reconcileId a = er_reconcileId b
  ∧ er_dag a = er_dag b
  ∧ er_startDateTime a = er_startDateTime b
  ∧ er_endDateTime a = er_endDateTime b
  ∧ er_errorMessage a = er_errorMessage b
  ∧ er_gitSha a = er_gitSha b
  ∧ er_estimatedCost a = er_estimatedCost b
  ∧ er_environment a = er_environment b
  ∧ er_team a = er_team b
  ∧ er_organization a = er_organization b.

Definition cr_sameButStatus (a b : ComponentReconcile) : Prop :=
  cr_reconcileId a = cr_reconcileId b
  ∧ cr_startDateTime a = cr_startDateTime b
  ∧ cr_endDateTime a = cr_endDateTime b
  ∧ cr_estimatedCost a = cr_estimatedCost b
  ∧ cr_isSkipped a = cr_isSkipped b
  ∧ cr_component a = cr_component b
  ∧ cr_environmentReconcile a = cr_environmentReconcile b
  ∧ cr_organization a = cr_organization b.

(** *** A concrete store of runs *)

Definition envRun (rid : Z) (status : string) (endDateTime : option Z)
    (envId : Z) : EnvironmentReconcile :=
  {| er_reconcileId := rid; er_status := status; er_dag := [];
     er_startDateTime := Some (100 * rid); er_endDateTime := endDateTime;
     er_errorMessage := None; er_gitSha := ""; er_estimatedCost := 0%float;
     er_environment := Some envId; er_team := 1; er_organization := 1 |}.

Definition compRun (rid : Z) (status : string) (endDateTime : option Z)
    (compId : Z) : ComponentReconcile :=
  {| cr_reconcileId := rid; cr_status := status;
     cr_startDateTime := Some (100 * rid); cr_endDateTime := endDateTime;
     cr_estimatedCost := 0%float; cr_isSkipped := None;
     cr_component := Some compId; cr_environmentReconcile := Some 4;
     cr_organization := 1 |}.

Definition runs : Store :=
  {| envReconRepo :=
       list_to_map
         [(1, envRun 1 "running" None 7);
          (2, envRun 2 "succeeded" (Some 250) 7);
          (3, envRun 3 "skipped_reconcile" None 7);
          (4, envRun 4 "initializing" None 7);
          (5, envRun 5 "running" None 8)];
     compReconRepo :=
       list_to_map
         [(1, compRun 1 "running" None 1);
          (2, compRun 2 "failed" (Some 250) 1);
          (3, compRun 3 "skipped_reconcile" None 1);
          (4, compRun 4 "waiting_for_parent" None 1);
          (5, compRun 5 "running" None 2)];
     componentRepo := ∅ |}.

Definition org1 : Organization := mkOrg 1 "acme".
Definition team1 : Team := mkTeam 1 "core".
Definition env_prod : Environment := mkEnvironment 7 "prod" [] false [] None.
Definition comp_one : Component := mkComponent 1 "vpc" false 7 None.

Lemma envKeyed_runs : envKeyed runs.
Proof.
  unfold envKeyed. apply map_Forall_to_list, Forall_forall.
  intros [k c] Hin. vm_compute in Hin.
  repeat (apply elem_of_cons in Hin as [Hin|Hin]; [by inversion Hin|]).
  by apply elem_of_nil in Hin.
Defined.

Lemma compKeyed_runs : compKeyed runs.
Proof.
  unfold compKeyed. apply map_Forall_to_list, Forall_forall.
  intros [k c] Hin. vm_compute in Hin.
  repeat (apply elem_of_cons in Hin as [Hin|Hin]; [by inversion Hin|]).
  by apply elem_of_nil in Hin.
Defined.

(** C5. A sweep at either level sets to [skipped_reconcile] exactly the
    rows in its scope that have no [endDateTime], are not already
    [skipped_reconcile] and whose [reconcileId] is not to be kept; a row that
    is closed, already skipped, kept or out of scope is left as it was, no row
    appears or disappears, and the other tables are not written. *)
Theorem sweep_retires_exactly st (keepReconcileIds : list Z) :
  envKeyed st → compKeyed st →
  (∀ org team env,
     let st' := (sweepEnvironment st org team env keepReconcileIds).1 in
     (∀ k r, envReconRepo st !! k = Some r →
        (envScope org team env r → er_endDateTime r = None →
         er_status r ≠ "skipped_reconcile" → er_reconcileId r ∉ keepReconcileIds →
         ∃ r', envReconRepo st' !! k = Some r' ∧ er_status r' = "skipped_reconcile")
        ∧ (¬ envScope org team env r ∨ er_endDateTime r ≠ None
           ∨ er_status r = "skipped_reconcile" ∨ er_reconcileId r ∈ keepReconcileIds →
           envReconRepo st' !! k = Some r))
     ∧ (∀ k, envReconRepo st !! k = None → envReconRepo st' !! k = None)
     ∧ compReconRepo st' = compReconRepo st
     ∧ componentRepo st' = componentRepo st)
  ∧ (∀ org envRecon comp,
       let st' := (sweepComponent st org envRecon comp keepReconcileIds).1 in
       (∀ k r, compReconRepo st !! k = Some r →
          (compScope org envRecon comp r → cr_endDateTime r = None →
           cr_status r ≠ "skipped_reconcile" → cr_reconcileId r ∉ keepReconcileIds →
           ∃ r', compReconRepo st' !! k = Some r' ∧ cr_status r' = "skipped_reconcile")
          ∧ (¬ compScope org envRecon comp r ∨ cr_endDateTime r ≠ None
             ∨ cr_status r = "skipped_reconcile" ∨ cr_reconcileId r ∈ keepReconcileIds →
             compReconRepo st' !! k = Some r))
       ∧ (∀ k, compReconRepo st !! k = None → compReconRepo st' !! k = None)
       ∧ envReconRepo st' = envReconRepo st
       ∧ componentRepo st' = componentRepo st).
Proof.
  intros Hek Hck. split.
  - intros org team env st'. subst st'. split_and!.
    + intros k r Hr. rewrite sweepEnvironment_lookup, Hr by done. split.
      * intros (Ht & Ho & He) Hend Hst Hid.
        rewrite decide_True by done. by eexists.
      * intros Hout. rewrite decide_False; [done|].
        intros (Hend & Hst & Hid & Ht & Ho & He).
        destruct Hout as [Hs|[?|[?|?]]]; [apply Hs| | |]; done.
    + intros k Hnone. by rewrite sweepEnvironment_lookup, Hnone.
    + apply bulkUpdateEnvironmentEntries_repo.
    + apply bulkUpdateEnvironmentEntries_repo.
  - intros org envRecon comp st'. subst st'. split_and!.
    + intros k r Hr. rewrite sweepComponent_lookup, Hr by done. split.
      * intros (Hc & He & Ho) Hend Hst Hid.
        rewrite decide_True by done. by eexists.
      * intros Hout. rewrite decide_False; [done|].
        intros (Hc & Hend & Hst & Hid & He & Ho).
        destruct Hout as [Hs|[?|[?|?]]]; [apply Hs| | |]; done.
    + intros k Hnone. by rewrite sweepComponent_lookup, Hnone.
    + apply bulkUpdateComponentEntries_repo.
    + apply bulkUpdateComponentEntries_repo.
Qed.

Lemma sweep_retires_exactly_witness :
  (∃ r', envReconRepo (sweepEnvironment runs org1 team1 env_prod [4]).1 !! 1 = Some r'
         ∧ er_status r' = "skipped_reconcile")
  ∧ envReconRepo (sweepEnvironment runs org1 team1 env_prod [4]).1 !! 2
    = Some (envRun 2 "succeeded" (Some 250) 7)
  ∧ envReconRepo (sweepEnvironment runs org1 team1 env_prod [4]).1 !! 4
    = Some (envRun 4 "initializing" None 7)
  ∧ (∃ r', compReconRepo
             (sweepComponent runs org1 (envRun 4 "initializing" None 7) comp_one [4]).1
             !! 1 = Some r'
           ∧ cr_status r' = "skipped_reconcile").
Proof.
  destruct (sweep_retires_exactly runs [4] envKeyed_runs compKeyed_runs) as [He Hc].
  destruct (He org1 team1 env_prod) as (Hrows & _).
  destruct (Hc org1 (envRun 4 "initializing" None 7) comp_one) as (Hcrows & _).
  split_and!.
  - apply (Hrows 1 (envRun 1 "running" None 7)); try done.
    intros Hin. by apply list_elem_of_singleton in Hin.
  - apply (Hrows 2 (envRun 2 "succeeded" (Some 250) 7)); [done|].
    right. left. done.
  - apply (Hrows 4 (envRun 4 "initializing" None 7)); [done|].
    right. right. right. by apply list_elem_of_singleton.
  - apply (Hcrows 1 (compRun 1 "running" None 1)); try done.
    intros Hin. by apply list_elem_of_singleton in Hin.
Defined.

(** C6. A bulk update writes back each entry with its [status] replaced
    and every other field as it was read; so a row retired by a sweep differs
    from the row before the sweep in [status] only, and its [endDateTime] is
    still unset. *)
Theorem bulkUpdate_changes_status_only st (keepReconcileIds : list Z) :
  envKeyed st → compKeyed st →
  (∀ entries status e,
     (∀ v, v ∈ entries → envReconRepo st !! er_reconcileId v = Some v) →
     e ∈ entries →
     ∃ e', envReconRepo (bulkUpdateEnvironmentEntries st entries status)
             !! er_reconcileId e = Some e'
           ∧ er_status e' = status ∧ er_sameButStatus e e')
  ∧ (∀ entries status e,
       (∀ v, v ∈ entries → compReconRepo st !! cr_reconcileId v = Some v) →
       e ∈ entries →
       ∃ e', compReconRepo (bulkUpdateComponentEntries st entries status)
               !! cr_reconcileId e = Some e'
             ∧ cr_status e' = status ∧ cr_sameButStatus e e')
  ∧ (∀ org team env k r,
       envReconRepo st !! k = Some r →
       skippedEnvironmentsWhere org team env keepReconcileIds r →
       ∃ r', envReconRepo (sweepEnvironment st org team env keepReconcileIds).1 !! k
               = Some r'
             ∧ er_sameButStatus r r' ∧ er_endDateTime r' = None)
  ∧ (∀ org envRecon comp k r,
       compReconRepo st !! k = Some r →
       skippedComponentsWhere org envRecon comp keepReconcileIds r →
       ∃ r', compReconRepo (sweepComponent st org envRecon comp keepReconcileIds).1 !! k
               = Some r'
             ∧ cr_sameButStatus r r' ∧ cr_endDateTime r' = None).
Proof.
  intros Hek Hck. split_and!.
  - intros entries status e Hrows Hin.
    destruct (bulkUpdateEnvironmentEntries_repo st entries status) as (-> & _ & _).
    rewrite (saveAll_rows er_reconcileId _ (er_withStatus_key status) (envReconRepo st))
      by done.
    rewrite decide_True by (by apply list_elem_of_fmap_2).
    rewrite (Hrows e Hin). simpl. eexists. split; [done|].
    split; [done|]. by repeat split.
  - intros entries status e Hrows Hin.
    destruct (bulkUpdateComponentEntries_repo st entries status) as (-> & _ & _).
    rewrite (saveAll_rows cr_reconcileId _ (cr_withStatus_key status) (compReconRepo st))
      by done.
    rewrite decide_True by (by apply list_elem_of_fmap_2).
    rewrite (Hrows e Hin). simpl. eexists. split; [done|].
    split; [done|]. by repeat split.
  - intros org team env k r Hr Hsel.
    rewrite sweepEnvironment_lookup, Hr, decide_True by done.
    eexists. split; [done|]. split; [by repeat split|]. simpl. apply Hsel.
  - intros org envRecon comp k r Hr Hsel.
    rewrite sweepComponent_lookup, Hr, decide_True by done.
    eexists. split; [done|]. split; [by repeat split|]. simpl. apply Hsel.
Qed.

Lemma bulkUpdate_changes_status_only_witness :
  (∃ r', envReconRepo (sweepEnvironment runs org1 team1 env_prod [4]).1 !! 1 = Some r'
         ∧ er_sameButStatus (envRun 1 "running" None 7) r'
         ∧ er_endDateTime r' = None)
  ∧ (∃ e', compReconRepo
             (bulkUpdateComponentEntries runs [compRun 5 "running" None 2] "cancelled")
             !! 5 = Some e'
           ∧ cr_status e' = "cancelled"
           ∧ cr_sameButStatus (compRun 5 "running" None 2) e').
Proof.
  destruct (bulkUpdate_changes_status_only runs [4] envKeyed_runs compKeyed_runs)
    as (_ & Hbulk & Hsweep & _).
  split.
  - apply (Hsweep org1 team1 env_prod 1 (envRun 1 "running" None 7)); [done|].
    repeat split; try done. intros Hin. by apply list_elem_of_singleton in Hin.
  - apply (Hbulk [compRun 5 "running" None 2] "cancelled" (compRun 5 "running" None 2)).
    + intros v ->%list_elem_of_singleton. done.
    + by apply list_elem_of_singleton.
Defined.

End Sweeper.

(** ** The cost recompute *)

Module Cost.

Import ReconciliationService.

(** *** The sum in the words of the specification *)

(** What one component contributes: the estimated cost of its latest run
    when that is greater than 0, and 0 otherwise or when it has no latest
    run. *)
Definition contribution (comp : Component) : float :=
  match latestCompRecon comp with
  | Some r => if (0 <? cr_estimatedCost r)%float then cr_estimatedCost r else 0%float
  | None => 0%float
  end.

Definition sumContributions (comps : list Component) : float :=
  fold_left (λ acc comp, (acc + contribution comp)%float) comps 0%float.

(** *** Binary64 facts *)

(** A float that is NaN or carries a positive sign: +0, a positive finite
    number or +infinity. *)
Definition nonneg_sf (x : spec_float) : Prop :=
  match x with
  | S754_zero s | S754_infinity s | S754_finite s _ _ => s = false
  | S754_nan => True
  end.

Lemma round_aux_nonneg mx ex lx :
  nonneg_sf (binary_round_aux prec emax false mx ex lx).
Proof.
  unfold binary_round_aux.
  destruct (shr_fexp prec emax mx ex lx) as [mrs' e'].
  destruct (shr_fexp prec emax _ e' loc_Exact) as [mrs'' e''].
  destruct (shr_m mrs''); simpl; [done | | done].
  by destruct (e'' <=? emax - prec).
Qed.

(** Adding a float that is greater than 0 never yields -0 or a negative
    float. *)
Lemma add_nonneg (a c : float) :
  nonneg_sf (Prim2SF a) → (0 <? c)%float = true → nonneg_sf (Prim2SF (a + c)).
Proof.
  rewrite ltb_spec, add_spec. change (Prim2SF 0) with (S754_zero false).
  unfold SF64add, SFltb, SFadd.
  destruct (Prim2SF a) as [sa|sa| |sa ma ea], (Prim2SF c) as [sc|sc| |sc mc ec];
    simpl; try done; intros Ha; subst.
  all: try (destruct sc; done).
  destruct sc; [done|]. intros _. unfold cond_Zopp.
  rewrite <- Pos2Z.inj_add. unfold binary_normalize, binary_round.
  destruct (shl_align _ _ (fexp _ _ _)). apply round_aux_nonneg.
Qed.

(** [x + 0] is [x] unless [x] is -0. *)
Lemma add_zero_r (a : float) : nonneg_sf (Prim2SF a) → (a + 0)%float = a.
Proof.
  intros Ha. apply Prim2SF_inj. rewrite add_spec.
  change (Prim2SF 0) with (S754_zero false). unfold SF64add, SFadd.
  destruct (Prim2SF a) as [sa|sa| |sa ma ea]; simpl in *; subst; done.
Qed.

Lemma costStep_contribution acc comp :
  nonneg_sf (Prim2SF acc) →
  costStep acc comp = (acc + contribution comp)%float
  ∧ nonneg_sf (Prim2SF (costStep acc comp)).
Proof.
  intros Hacc. unfold costStep, contribution.
  destruct (latestCompRecon comp) as [r|].
  - destruct (0 <? cr_estimatedCost r)%float eqn:Hpos.
    + split; [done | by apply add_nonneg].
    + split; [by rewrite add_zero_r | done].
  - split; [by rewrite add_zero_r | done].
Qed.

Lemma costLoop_sum comps acc :
  nonneg_sf (Prim2SF acc) →
  fold_left costStep comps acc
  = fold_left (λ acc comp, (acc + contribution comp)%float) comps acc.
Proof.
  revert acc. induction comps as [|c comps IH]; intros acc Hacc; simpl; [done|].
  destruct (costStep_contribution acc c Hacc) as [Heq Hnn].
  rewrite IH by done. by rewrite Heq.
Qed.

Lemma updateCost_cost comps :
  fold_left costStep comps 0%float = sumContributions comps.
Proof. apply costLoop_sum. by vm_compute. Qed.

(** *** A concrete environment *)

Definition latestWithCost (rid : Z) (cost : float) : ComponentReconcile :=
  {| cr_reconcileId := rid; cr_status := "succeeded";
     cr_startDateTime := Some 100; cr_endDateTime := Some 200;
     cr_estimatedCost := cost; cr_isSkipped := None;
     cr_component := None; cr_environmentReconcile := Some 9;
     cr_organization := 1 |}.

Definition compWithCost (id : Z) (cost : float) : Component :=
  mkComponent id "c" false 7 (Some (latestWithCost (10 + id) cost)).

Definition run9 : EnvironmentReconcile :=
  {| er_reconcileId := 9; er_status := "succeeded"; er_dag := [];
     er_startDateTime := Some 100; er_endDateTime := Some 300;
     er_errorMessage := None; er_gitSha := ""; er_estimatedCost := 0%float;
     er_environment := Some 7; er_team := 1; er_organization := 1 |}.

(** The run was loaded together with a snapshot of one child, taken when
    the child still had cost 1; the table has since moved on to cost 10. *)
Definition staleChild : ComponentReconcile := latestWithCost 11 1%float.

Definition costStore : Store :=
  {| envReconRepo := {[ 9 := run9 ]};
     compReconRepo := {[ 11 := latestWithCost 11 10%float ]};
     componentRepo := ∅ |}.

Definition costEnv : Environment :=
  {| env_id := 7; env_name := "prod"; env_dag := []; env_isDeleted := false;
     components :=
       [compWithCost 1 10%float; compWithCost 2 (-5)%float;
        compWithCost 3 0%float; compWithCost 4 7.5%float;
        mkComponent 5 "new" false 7 None];
     latestEnvRecon :=
       Some {| columns := run9; componentReconciles := Some [staleChild] |} |}.

(** C7. [updateCost] writes, on the environment's latest run, the sum over
    the components of the estimated cost of the component's latest run where
    that is greater than 0, and of 0 otherwise or where there is no latest
    run; the sum is taken from 0 in component order and depends on nothing but
    the components. Latest costs 10, -5, 0 and 7.5 (and one component without
    a latest run) give 17.5. A second recompute on what the first left changes
    neither the store nor the entity. *)
Theorem updateCost_sum st env envRecon :
  latestEnvRecon env = Some envRecon →
  ∃ st' env' saved,
    updateCost st env = (st', Fulfilled env')
    ∧ envReconRepo st' !! er_reconcileId (columns envRecon) = Some saved
    ∧ er_estimatedCost saved = sumContributions (components env)
    ∧ components env' = components env
    ∧ (columns <$> latestEnvRecon env') = Some saved
    ∧ updateCost st' env' = (st', Fulfilled env')
    ∧ sumContributions (components costEnv) = 17.5%float.
Proof.
  intros He. unfold updateCost. rewrite He. simpl.
  rewrite updateCost_cost.
  eexists _, _, _. split; [done|]. split_and!.
  - simpl. apply lookup_insert_eq.
  - done.
  - done.
  - done.
  - simpl. rewrite updateCost_cost. unfold saveLoaded. simpl.
    by rewrite insert_insert_eq.
  - by vm_compute.
Qed.

Lemma updateCost_sum_witness :
  ∃ st' env' saved,
    updateCost costStore costEnv = (st', Fulfilled env')
    ∧ envReconRepo st' !! 9 = Some saved
    ∧ er_estimatedCost saved = 17.5%float.
Proof.
  destruct (updateCost_sum costStore costEnv
              {| columns := run9; componentReconciles := Some [staleChild] |} eq_refl)
    as (st' & env' & saved & Hrun & Hrow & Hcost & _ & _ & _ & Hex).
  exists st', env', saved. split; [exact Hrun|]. split; [exact Hrow|].
  rewrite Hcost. exact Hex.
Defined.

(** All columns but [estimatedCost] agree. *)
Definition er_sameButCost (a b : EnvironmentReconcile) : Prop :=
  er_reconcileId a = er_reconcileId b
  ∧ er_status a = er_status b
  ∧ er_dag a = er_dag b
  ∧ er_startDateTime a = er_startDateTime b
  ∧ er_endDateTime a = er_endDateTime b
  ∧ er_errorMessage a = er_errorMessage b
  ∧ er_gitSha a = er_gitSha b
  ∧ er_environment a = er_environment b
  ∧ er_team a = er_team b
  ∧ er_organization a = er_organization b.

(** C8. [updateCost] writes one row, that of the environment's latest run,
    and writes it with the columns the entity held and the new
    [estimatedCost]; the nested collection is no longer a property of the
    entity when it is saved, so no component-run row is written, whatever
    snapshot of the children the entity was loaded with; saving the entity
    with the collection still on it would have written that snapshot. *)
Theorem updateCost_writes_cost_only st env envRecon :
  latestEnvRecon env = Some envRecon →
  ∃ st' env',
    updateCost st env = (st', Fulfilled env')
    ∧ compReconRepo st' = compReconRepo st
    ∧ componentRepo st' = componentRepo st
    ∧ (∀ k, k ≠ er_reconcileId (columns envRecon) →
         envReconRepo st' !! k = envReconRepo st !! k)
    ∧ (∃ saved,
         envReconRepo st' !! er_reconcileId (columns envRecon) = Some saved
         ∧ er_sameButCost (columns envRecon) saved)
    ∧ (componentReconciles <$> latestEnvRecon env') = Some None
    ∧ (∀ children, componentReconciles envRecon = Some children →
         compReconRepo (saveLoaded st envRecon)
         = saveAll cr_reconcileId children (compReconRepo st)).
Proof.
  intros He. unfold updateCost. rewrite He. simpl.
  eexists _, _. split; [done|]. simpl. split_and!; try done.
  - intros k Hne. by rewrite lookup_insert_ne.
  - eexists. split; [apply lookup_insert_eq|]. by repeat split.
  - intros children Hc. unfold saveLoaded. by rewrite Hc.
Qed.

Lemma updateCost_writes_cost_only_witness :
  ∃ st' env',
    updateCost costStore costEnv = (st', Fulfilled env')
    ∧ compReconRepo st' !! 11 = Some (latestWithCost 11 10%float)
    ∧ compReconRepo
        (saveLoaded costStore
           {| columns := run9; componentReconciles := Some [staleChild] |}) !! 11
      = Some staleChild.
Proof.
  destruct (updateCost_writes_cost_only costStore costEnv
              {| columns := run9; componentReconciles := Some [staleChild] |} eq_refl)
    as (st' & env' & Hrun & Hchildren & _ & _ & _ & _ & Hstale).
  exists st', env'. split; [exact Hrun|]. split.
  - rewrite Hchildren. reflexivity.
  - rewrite (Hstale [staleChild] eq_refl). reflexivity.
Defined.

End Cost.

(** ** The latest meaningful run of a component *)

Module Latest.

Import ReconciliationService.

(** [a] is not later than [b]; an unset time is earlier than any set one. *)
Definition startLe (a b : option Z) : Prop :=
  match a, b with
  | None, _ => True
  | Some _, None => False
  | Some x, Some y => x ≤ y
  end.


Lemma nullsLowLeb_le a b : nullsLowLeb a b = true ↔ startLe a b.
Proof.
  destruct a as [x|], b as [y|]; simpl; try done.
  apply Z.leb_le.
Qed.

Lemma startLe_trans a b c : startLe a b → startLe b c → startLe a c.
Proof.
  destruct a as [x|], b as [y|], c as [z|]; simpl; try done. lia.
Qed.

Lemma startLe_total a b : startLe a b ∨ startLe b a.
Proof.
  destruct a as [x|], b as [y|]; simpl; try (by left); try (by right). lia.
Qed.

(** [firstDesc] returns a row of the list that no row of the list
    exceeds, and returns nothing only for the empty list. *)
Lemma firstDesc_spec {V} (key : V → option Z) (rows : list V) :
  match firstDesc key rows with
  | Some v => v ∈ rows ∧ ∀ w, w ∈ rows → startLe (key w) (key v)
  | None => rows = []
  end.
Proof.
  induction rows as [|v rows IH]; simpl; [done|].
  destruct (firstDesc key rows) as [w|].
  - destruct IH as [Hw Hmax].
    destruct (nullsLowLeb (key w) (key v)) eqn:Hle.
    + apply nullsLowLeb_le in Hle. split; [left|].
      intros u [->|Hu]%elem_of_cons.
      * destruct (key v); simpl; [lia | done].
      * eapply startLe_trans; [by apply Hmax | done].
    + assert (Hvw : startLe (key v) (key w)).
      { destruct (startLe_total (key v) (key w)) as [?|Hc]; [done|].
        apply nullsLowLeb_le in Hc. congruence. }
      split; [by right|].
      intros u [->|Hu]%elem_of_cons; [done | by apply Hmax].
  - subst rows. split; [left|].
    intros u [->|Hu]%elem_of_cons; [|by apply elem_of_nil in Hu].
    destruct (key v); simpl; [lia | done].
Qed.


(** *** Four runs of one component *)

Definition runAt (rid : Z) (status : string) (t : Z) : ComponentReconcile :=
  {| cr_reconcileId := rid; cr_status := status;
     cr_startDateTime := Some t; cr_endDateTime := None;
     cr_estimatedCost := 0%float; cr_isSkipped := None;
     cr_component := Some 1; cr_environmentReconcile := Some 9;
     cr_organization := 1 |}.


Definition org1 : Organization := mkOrg 1 "acme".



End Latest.

(** ** Further properties of the component diff *)

Module PlanFacts.

Import Diff.

(** The stored components that an incoming list keeps. *)
Definition kept (currentComps : list Component)
    (incoming : list EnvSpecComponentDto) : list Component :=
  filter (λ c, comp_name c ∈ spec_name <$> incoming) currentComps.

Lemma missing_kept_length cs incoming :
  (length (toDelete_spec cs incoming) + length (kept cs incoming))%nat = length cs.
Proof.
  unfold toDelete_spec, kept. induction cs as [|c cs IH]; [done|].
  rewrite !filter_cons.
  destruct (decide (comp_name c ∈ spec_name <$> incoming)) as [Hin|Hnin].
  - rewrite decide_False by (intros Hn; by apply Hn). simpl. lia.
  - rewrite decide_True by done. simpl. lia.
Qed.

(** With names unique, [find] by name returns the entry of that name. *)
Lemma find_unique (ss : list EnvSpecComponentDto) s :
  NoDup (spec_name <$> ss) → s ∈ ss →
  Js.find (λ i, String.eqb (spec_name s) (spec_name i)) ss = Some s.
Proof.
  intros Hnd Hin.
  destruct (Js.find _ ss) as [f|] eqn:Hf.
  - apply find_spec_some in Hf as [Hfin Hname].
    f_equal. by eapply NoDup_fmap_eq.
  - apply find_spec_none in Hf. exfalso. apply Hf. by apply list_elem_of_fmap_2.
Qed.

Lemma matchOf_unique ss c s :
  NoDup (spec_name <$> ss) → s ∈ ss → spec_name s = comp_name c →
  matchOf ss c = Some s.
Proof.
  intros Hnd Hin Hname. unfold matchOf. rewrite <- Hname. by apply find_unique.
Qed.

(** Distinct component names give distinct matches. *)
Lemma existing_NoDup cs incoming :
  NoDup (comp_name <$> cs) → NoDup (spec_name <$> existing_spec cs incoming).
Proof.
  intros Hnd. rewrite <- kept_names.
  induction cs as [|c cs IH]; [constructor|].
  rewrite fmap_cons in Hnd. apply NoDup_cons in Hnd as [Hn Hnd].
  rewrite filter_cons. destruct (decide _); [|by apply IH].
  rewrite fmap_cons. apply NoDup_cons. split; [|by apply IH].
  intros (x & Hx & Hxin)%list_elem_of_fmap. apply Hn. rewrite Hx.
  apply list_elem_of_fmap_2. by apply list_elem_of_filter in Hxin as [_ ?].
Qed.

Lemma NoDup_fmap_inv {A B} (f : A → B) (l : list A) :
  NoDup (f <$> l) → NoDup l.
Proof.
  induction l as [|a l IH]; [constructor|].
  rewrite fmap_cons, !NoDup_cons. intros [Hn Hnd]. split; [|by apply IH].
  intros Hin. apply Hn. by apply list_elem_of_fmap_2.
Qed.

Lemma filter_names_NoDup (P : EnvSpecComponentDto → Prop) `{∀ x, Decision (P x)}
    (ss : list EnvSpecComponentDto) :
  NoDup (spec_name <$> ss) → NoDup (spec_name <$> filter P ss).
Proof.
  induction ss as [|s ss IH]; [constructor|].
  rewrite fmap_cons, NoDup_cons, filter_cons. intros [Hn Hnd].
  destruct (decide (P s)); [|by apply IH].
  rewrite fmap_cons. apply NoDup_cons. split; [|by apply IH].
  intros (x & Hx & Hxin)%list_elem_of_fmap. apply Hn. rewrite Hx.
  apply list_elem_of_fmap_2. by apply list_elem_of_filter in Hxin as [_ ?].
Qed.

Lemma stdpp_filter_all {A} (P : A → Prop) `{∀ x, Decision (P x)} (l : list A) :
  (∀ x, x ∈ l → P x) → filter P l = l.
Proof.
  induction l as [|a l IH]; intros Hall; [done|].
  rewrite filter_cons_True by (apply Hall; left).
  f_equal. apply IH. intros x Hx. apply Hall. by right.
Qed.

(** X1. The names of the merged dag are the names of the stored
    components that the request keeps, in their stored order, followed by the
    names of the new components; and every stored component is either kept
    or deleted, so the lengths add up. *)
Theorem plan_keeps_stored_order (currentComps : list Component)
    (incoming : list EnvSpecComponentDto) :
  spec_name <$> dag (plan currentComps incoming)
  = (comp_name <$> filter (λ c, comp_name c ∈ spec_name <$> incoming) currentComps)
    ++ (spec_name <$> newComponents (plan currentComps incoming))
  ∧ (length (dag (plan currentComps incoming))
     + length (missingComponents (plan currentComps incoming))
     = length currentComps + length (newComponents (plan currentComps incoming)))%nat.
Proof.
  rewrite plan_unfold. simpl. rewrite fmap_app, <- kept_names. split; [done|].
  rewrite length_app.
  assert (Hlen : length (existing_spec currentComps incoming)
                 = length (kept currentComps incoming)).
  { rewrite <- (length_fmap spec_name), <- kept_names, length_fmap. done. }
  pose proof (missing_kept_length currentComps incoming). lia.
Qed.

(** X2. When the stored components have distinct names and the request
    has distinct names, the merged dag is the request reordered: it holds
    every incoming spec exactly once and nothing else. *)
Theorem plan_dag_permutes_incoming (currentComps : list Component)
    (incoming : list EnvSpecComponentDto) :
  NoDup (comp_name <$> currentComps) → NoDup (spec_name <$> incoming) →
  dag (plan currentComps incoming) ≡ₚ incoming.
Proof.
  intros Hcs Hinc. rewrite plan_unfold. simpl.
  apply NoDup_Permutation.
  - apply (NoDup_fmap_inv spec_name). rewrite fmap_app. apply NoDup_app.
    split_and!.
    + by apply existing_NoDup.
    + intros n Hex Hnew. rewrite <- kept_names in Hex.
      apply list_elem_of_fmap in Hex as (c & -> & Hc).
      apply list_elem_of_filter in Hc as [_ Hc].
      apply list_elem_of_fmap in Hnew as (s & Hs & Hsin).
      apply list_elem_of_filter in Hsin as [Hnot _]. apply Hnot.
      rewrite <- Hs. by apply list_elem_of_fmap_2.
    + by apply filter_names_NoDup.
  - by apply (NoDup_fmap_inv spec_name).
  - intros s. rewrite elem_of_app. unfold existing_spec, toCreate_spec. split.
    + intros [Hs|Hs].
      * apply list_elem_of_omap in Hs as (c & _ & Hm).
        by apply find_spec_some in Hm as [? _].
      * by apply list_elem_of_filter in Hs as [_ ?].
    + intros Hs.
      destruct (decide (spec_name s ∈ comp_name <$> currentComps)) as [Hc|Hc].
      * left. apply list_elem_of_fmap in Hc as (c & Hn & Hc).
        apply list_elem_of_omap. exists c. split; [done|].
        by apply matchOf_unique.
      * right. by apply list_elem_of_filter.
Qed.

Lemma plan_dag_permutes_incoming_witness :
  NoDup (comp_name <$> [row_b; row_a]) ∧ NoDup (spec_name <$> [in_a; in_c])
  ∧ dag (plan [row_b; row_a] [in_a; in_c]) ≡ₚ [in_a; in_c].
Proof.
  assert (H1 : NoDup (comp_name <$> [row_b; row_a])).
  { apply NoDup_cons. split; [|apply NoDup_singleton].
    intros Hin. apply list_elem_of_singleton in Hin. discriminate Hin. }
  assert (H2 : NoDup (spec_name <$> [in_a; in_c])).
  { apply NoDup_cons. split; [|apply NoDup_singleton].
    intros Hin. apply list_elem_of_singleton in Hin. discriminate Hin. }
  split; [exact H1|]. split; [exact H2|].
  exact (plan_dag_permutes_incoming [row_b; row_a] [in_a; in_c] H1 H2).
Defined.

(** X3. The order in which a request lists its components matters only
    for the new ones: for two requests with the same specs in different
    orders (names distinct), the components to delete are the same, the kept
    part of the merged dag is the same list, and the components to create are
    the same up to order. *)
Theorem plan_ignores_request_order (currentComps : list Component)
    (incoming incoming' : list EnvSpecComponentDto) :
  incoming ≡ₚ incoming' → NoDup (spec_name <$> incoming) →
  missingComponents (plan currentComps incoming')
    = missingComponents (plan currentComps incoming)
  ∧ newComponents (plan currentComps incoming')
      ≡ₚ newComponents (plan currentComps incoming)
  ∧ ∃ keptSpecs,
      dag (plan currentComps incoming)
        = keptSpecs ++ newComponents (plan currentComps incoming)
      ∧ dag (plan currentComps incoming')
        = keptSpecs ++ newComponents (plan currentComps incoming').
Proof.
  intros Hperm Hnd. rewrite !plan_unfold. simpl.
  assert (Hnd' : NoDup (spec_name <$> incoming')) by (by rewrite <- Hperm).
  assert (Hmatch : ∀ c, matchOf incoming' c = matchOf incoming c).
  { intros c. destruct (matchOf incoming c) as [s|] eqn:Hm.
    - apply find_spec_some in Hm as [Hin Hname].
      apply matchOf_unique; [done | by rewrite <- Hperm | done].
    - apply find_spec_none in Hm. apply find_spec_none. by rewrite <- Hperm. }
  split_and!.
  - unfold toDelete_spec. apply list_filter_iff. intros c. by rewrite Hperm.
  - unfold toCreate_spec. by rewrite Hperm.
  - exists (existing_spec currentComps incoming). split; [done|].
    f_equal. unfold existing_spec.
    induction currentComps as [|c cs IH]; [done|]. simpl.
    rewrite Hmatch. destruct (matchOf incoming c); [f_equal|]; apply IH.
Qed.

Lemma plan_ignores_request_order_witness :
  missingComponents (plan [row_b; row_a] [in_c; in_a])
    = missingComponents (plan [row_b; row_a] [in_a; in_c])
  ∧ newComponents (plan [row_b; row_a] [in_c; in_a])
      ≡ₚ newComponents (plan [row_b; row_a] [in_a; in_c])
  ∧ ∃ keptSpecs,
      dag (plan [row_b; row_a] [in_a; in_c])
        = keptSpecs ++ newComponents (plan [row_b; row_a] [in_a; in_c])
      ∧ dag (plan [row_b; row_a] [in_c; in_a])
        = keptSpecs ++ newComponents (plan [row_b; row_a] [in_c; in_a]).
Proof.
  apply (plan_ignores_request_order [row_b; row_a] [in_a; in_c] [in_c; in_a]).
  - apply perm_swap.
  - apply NoDup_cons. split; [|apply NoDup_singleton].
    intros Hin. apply list_elem_of_singleton in Hin. discriminate Hin.
Defined.

(** X4. With nothing stored, every incoming spec is new and the merged
    dag is the request as it came; with an empty request, every stored
    component is deleted and the merged dag is empty. *)
Theorem plan_empty_sides :
  (∀ incoming : list EnvSpecComponentDto,
     plan [] incoming
     = {| dag := incoming; newComponents := incoming; missingComponents := [] |})
  ∧ (∀ currentComps : list Component,
       plan currentComps []
       = {| dag := []; newComponents := []; missingComponents := currentComps |}).
Proof.
  split.
  - intros incoming. rewrite plan_unfold. unfold toCreate_spec, toDelete_spec.
    rewrite stdpp_filter_all by (intros s _; apply not_elem_of_nil). done.
  - intros cs. rewrite plan_unfold.
    assert (Hex : existing_spec cs [] = []).
    { unfold existing_spec. induction cs as [|c cs IH]; [done|]. simpl. apply IH. }
    assert (Hdel : toDelete_spec cs [] = cs).
    { unfold toDelete_spec. apply stdpp_filter_all.
      intros c _. apply not_elem_of_nil. }
    rewrite Hex, Hdel. done.
Qed.

End PlanFacts.

(** ** Further properties of the stale-run queries and bulk updates *)

Module SweepFacts.

Import ReconciliationService Sweeper.

(** A row of the run table after the bulk update of what the query
    selected. *)
Lemma swept_env_row st org team env keep k r :
  envKeyed st →
  envReconRepo
    (bulkUpdateEnvironmentEntries st
       (getSkippedEnvironments st org team env keep) "skipped_reconcile") !! k
  = Some r →
  ∃ r0, envReconRepo st !! k = Some r0
        ∧ ((skippedEnvironmentsWhere org team env keep r0
            ∧ r = er_withStatus r0 "skipped_reconcile")
           ∨ (¬ skippedEnvironmentsWhere org team env keep r0 ∧ r = r0)).
Proof.
  intros Hk Hr.
  change (bulkUpdateEnvironmentEntries st _ _)
    with (sweepEnvironment st org team env keep).1 in Hr.
  rewrite sweepEnvironment_lookup in Hr by done.
  destruct (envReconRepo st !! k) as [r0|]; [|done].
  exists r0. split; [done|]. injection Hr as <-.
  destruct (decide _); [by left | by right].
Qed.

Lemma swept_comp_row st org envRecon comp keep k r :
  compKeyed st →
  compReconRepo
    (bulkUpdateComponentEntries st
       (getSkippedComponents st org envRecon comp keep) "skipped_reconcile") !! k
  = Some r →
  ∃ r0, compReconRepo st !! k = Some r0
        ∧ ((skippedComponentsWhere org envRecon comp keep r0
            ∧ r = cr_withStatus r0 "skipped_reconcile")
           ∨ (¬ skippedComponentsWhere org envRecon comp keep r0 ∧ r = r0)).
Proof.
  intros Hk Hr.
  change (bulkUpdateComponentEntries st _ _)
    with (sweepComponent st org envRecon comp keep).1 in Hr.
  rewrite sweepComponent_lookup in Hr by done.
  destruct (compReconRepo st !! k) as [r0|]; [|done].
  exists r0. split; [done|]. injection Hr as <-.
  destruct (decide _); [by left | by right].
Qed.

(** After the bulk update no row satisfies the query's condition. *)
Lemma swept_env_none st org team env keep k r :
  envKeyed st →
  envReconRepo
    (bulkUpdateEnvironmentEntries st
       (getSkippedEnvironments st org team env keep) "skipped_reconcile") !! k
  = Some r →
  ¬ skippedEnvironmentsWhere org team env keep r.
Proof.
  intros Hk Hr Hw.
  destruct (swept_env_row _ _ _ _ _ _ _ Hk Hr) as (r0 & _ & [[_ ->]|[Hn ->]]).
  - by destruct Hw as (_ & Hst & _).
  - done.
Qed.

Lemma swept_comp_none st org envRecon comp keep k r :
  compKeyed st →
  compReconRepo
    (bulkUpdateComponentEntries st
       (getSkippedComponents st org envRecon comp keep) "skipped_reconcile") !! k
  = Some r →
  ¬ skippedComponentsWhere org envRecon comp keep r.
Proof.
  intros Hk Hr Hw.
  destruct (swept_comp_row _ _ _ _ _ _ _ Hk Hr) as (r0 & _ & [[_ ->]|[Hn ->]]).
  - by destruct Hw as (_ & _ & Hst & _).
  - done.
Qed.

(** X5. Retiring what a stale-run query returns leaves nothing for the
    same query to return: run again on the updated table, at either level, it
    comes back empty, so a second bulk update writes nothing. *)
Theorem sweep_then_query_empty st (ignoreReconcileIds : list Z) :
  envKeyed st → compKeyed st →
  (∀ org team env,
     let st' :=
       bulkUpdateEnvironmentEntries st
         (getSkippedEnvironments st org team env ignoreReconcileIds)
         "skipped_reconcile" in
     getSkippedEnvironments st' org team env ignoreReconcileIds = []
     ∧ bulkUpdateEnvironmentEntries st'
         (getSkippedEnvironments st' org team env ignoreReconcileIds)
         "skipped_reconcile" = st')
  ∧ (∀ org envRecon comp,
       let st' :=
         bulkUpdateComponentEntries st
           (getSkippedComponents st org envRecon comp ignoreReconcileIds)
           "skipped_reconcile" in
       getSkippedComponents st' org envRecon comp ignoreReconcileIds = []
       ∧ bulkUpdateComponentEntries st'
           (getSkippedComponents st' org envRecon comp ignoreReconcileIds)
           "skipped_reconcile" = st').
Proof.
  intros Hek Hck. split.
  - intros org team env st'.
    assert (Hempty : getSkippedEnvironments st' org team env ignoreReconcileIds = []).
    { apply elem_of_nil_inv. intros r Hin.
      apply findWhere_elem in Hin as (k & Hr & Hw).
      by apply (swept_env_none st org team env ignoreReconcileIds k r). }
    split; [done|]. by rewrite Hempty.
  - intros org envRecon comp st'.
    assert (Hempty : getSkippedComponents st' org envRecon comp ignoreReconcileIds = []).
    { apply elem_of_nil_inv. intros r Hin.
      apply findWhere_elem in Hin as (k & Hr & Hw).
      by apply (swept_comp_none st org envRecon comp ignoreReconcileIds k r). }
    split; [done|]. by rewrite Hempty.
Qed.

Lemma sweep_then_query_empty_witness :
  getSkippedEnvironments
    (bulkUpdateEnvironmentEntries runs
       (getSkippedEnvironments runs org1 team1 env_prod [4]) "skipped_reconcile")
    org1 team1 env_prod [4] = []
  ∧ length (getSkippedEnvironments runs org1 team1 env_prod [4]) = 1%nat.
Proof.
  destruct (sweep_then_query_empty runs [4] envKeyed_runs compKeyed_runs) as [He _].
  split; [apply (He org1 team1 env_prod) | reflexivity].
Defined.

(** X6. After the bulk update of what a stale-run query returned, every
    run of the scope that is still open (no [endDateTime], status other than
    [skipped_reconcile]) is one of the runs to keep, and is as it was; with a
    single id to keep, at most one run of the scope is open. *)
Theorem open_runs_after_sweep st (ignoreReconcileIds : list Z) :
  envKeyed st → compKeyed st →
  (∀ org team env k r,
     envReconRepo
       (bulkUpdateEnvironmentEntries st
          (getSkippedEnvironments st org team env ignoreReconcileIds)
          "skipped_reconcile") !! k = Some r →
     envScope org team env r → er_endDateTime r = None →
     er_status r ≠ "skipped_reconcile" →
     k ∈ ignoreReconcileIds ∧ envReconRepo st !! k = Some r)
  ∧ (∀ org envRecon comp k r,
       compReconRepo
         (bulkUpdateComponentEntries st
            (getSkippedComponents st org envRecon comp ignoreReconcileIds)
            "skipped_reconcile") !! k = Some r →
       compScope org envRecon comp r → cr_endDateTime r = None →
       cr_status r ≠ "skipped_reconcile" →
       k ∈ ignoreReconcileIds ∧ compReconRepo st !! k = Some r).
Proof.
  intros Hek Hck. split.
  - intros org team env k r Hr (Ht & Ho & He) Hend Hst.
    destruct (swept_env_row _ _ _ _ _ _ _ Hek Hr) as (r0 & Hr0 & [[_ ->]|[Hn ->]]);
      [done|].
    split; [|done]. rewrite <- (Hek _ _ Hr0).
    destruct (decide (er_reconcileId r0 ∈ ignoreReconcileIds)); [done|].
    exfalso. apply Hn. by repeat split.
  - intros org envRecon comp k r Hr (Hc & He & Ho) Hend Hst.
    destruct (swept_comp_row _ _ _ _ _ _ _ Hck Hr) as (r0 & Hr0 & [[_ ->]|[Hn ->]]);
      [done|].
    split; [|done]. rewrite <- (Hck _ _ Hr0).
    destruct (decide (cr_reconcileId r0 ∈ ignoreReconcileIds)); [done|].
    exfalso. apply Hn. by repeat split.
Qed.

Lemma open_runs_after_sweep_witness :
  envReconRepo
    (bulkUpdateEnvironmentEntries runs
       (getSkippedEnvironments runs org1 team1 env_prod [4])
       "skipped_reconcile") !! 4 = Some (envRun 4 "initializing" None 7)
  ∧ 4 ∈ [4]
  ∧ envReconRepo runs !! 4 = Some (envRun 4 "initializing" None 7).
Proof.
  assert (Hrow : envReconRepo
    (bulkUpdateEnvironmentEntries runs
       (getSkippedEnvironments runs org1 team1 env_prod [4])
       "skipped_reconcile") !! 4 = Some (envRun 4 "initializing" None 7)).
  { vm_compute. reflexivity. }
  split; [exact Hrow|].
  destruct (open_runs_after_sweep runs [4] envKeyed_runs compKeyed_runs) as [Henv _].
  apply (Henv org1 team1 env_prod 4 (envRun 4 "initializing" None 7) Hrow); done.
Defined.

End SweepFacts.

(** ** Further properties of the run fan-out *)

Module RunFacts.

Import ReconciliationService EnvironmentController Sweeper.

(** Two tables that agree on the rows satisfying a condition give the
    same answer to a query with that condition. *)
Lemma findWhere_agree {V} (P : V → Prop) `{∀ v, Decision (P v)}
    (repo repo' : gmap Z V) :
  (∀ k v, P v → repo' !! k = Some v ↔ repo !! k = Some v) →
  findWhere P repo' = findWhere P repo.
Proof.
  intros Hagree. unfold findWhere. f_equal. f_equal.
  apply map_eq. intros k. apply option_eq. intros v.
  rewrite !map_lookup_filter_Some. simpl. split.
  - intros [Hl HP]. split; [by apply Hagree | done].
  - intros [Hl HP]. split; [by apply Hagree | done].
Qed.

(** The run table after [createEnvRecon], whatever happens next. *)
Lemma createEnvRecon_envRepo flt now sched st org team env createEnv :
  envReconSaveFails flt = false →
  envReconRepo (createEnvRecon flt now sched st org team env createEnv).1
  = <[fresh (dom (envReconRepo st))
      := initialRow now org team env createEnv (fresh (dom (envReconRepo st)))]>
      (envReconRepo st).
Proof.
  intros Hs. destruct (findByIdFails flt) eqn:Hf.
  - unfold createEnvRecon, ReconciliationService.createEnvRecon,
      EnvironmentService.findById. rewrite Hs, Hf. done.
  - rewrite (createEnvRecon_run flt now sched st org team env createEnv Hs Hf). simpl.
    match goal with
    | |- context [settle flt org ?e sched ?l ?s] =>
        destruct (settle_spec flt org e sched l s) as (_ & _ & (He & _) & _)
    end.
    by rewrite He.
Qed.

(** The component-run table after [createEnvRecon]: the rows that were
    there, and rows in [waiting_for_parent] under keys that were free. *)
Lemma createEnvRecon_compRows flt now sched st org team env createEnv k r :
  compReconRepo (createEnvRecon flt now sched st org team env createEnv).1 !! k = Some r
  ↔ compReconRepo st !! k = Some r
    ∨ (compReconRepo st !! k = None
       ∧ compReconRepo (createEnvRecon flt now sched st org team env createEnv).1 !! k
         = Some r
       ∧ cr_status r = "waiting_for_parent"
       ∧ cr_startDateTime r = None).
Proof.
  destruct (envReconSaveFails flt) eqn:Hs.
  { unfold createEnvRecon, ReconciliationService.createEnvRecon. rewrite Hs. simpl.
    split; [by left | intros [?|(? & ? & _)]; done]. }
  destruct (findByIdFails flt) eqn:Hf.
  { unfold createEnvRecon, ReconciliationService.createEnvRecon,
      EnvironmentService.findById. rewrite Hs, Hf. simpl.
    split; [by left | intros [?|(? & ? & _)]; done]. }
  rewrite (createEnvRecon_run flt now sched st org team env createEnv Hs Hf). simpl.
  match goal with
  | |- context [settle flt org ?e sched ?l ?s] =>
      destruct (settle_spec flt org e sched l s)
        as (Hcons & Hdone & (_ & Hfresh & Hrows & _) & _ & _);
      pose proof (done_rows flt org e _ Hcons Hdone) as Ha
  end.
  simpl in Hfresh, Hrows. rewrite Hrows. split.
  - intros [[Hin <-]|Hold]; [|by left]. right.
    destruct (created_elem _ _ _ _ _ Ha Hin) as (c & _ & Hr).
    split_and!; [by apply Hfresh | by left | by rewrite Hr | by rewrite Hr].
  - intros [Hold|(_ & Hnew & _)]; [by right | exact Hnew].
Qed.

(** X7. [createEnvRecon] is rejected exactly when the save of the run or
    the reload of the environment is rejected. In the first case nothing is
    written. In the second the run stays saved, in status [initializing] and
    without a single component run, and no component row is touched. *)
Theorem createEnvRecon_rejections flt now sched st org team env createEnv :
  (envReconSaveFails flt = true →
   createEnvRecon flt now sched st org team env createEnv = (st, Rejected))
  ∧ (envReconSaveFails flt = false → findByIdFails flt = true →
     ∃ envRecon,
       envReconRepo st !! er_reconcileId envRecon = None
       ∧ er_status envRecon = "initializing"
       ∧ createEnvRecon flt now sched st org team env createEnv
         = ({| envReconRepo := <[er_reconcileId envRecon := envRecon]> (envReconRepo st);
               compReconRepo := compReconRepo st;
               componentRepo := componentRepo st |}, Rejected))
  ∧ (envReconSaveFails flt = false → findByIdFails flt = false →
     ∃ st' envRecon,
       createEnvRecon flt now sched st org team env createEnv
       = (st', Fulfilled envRecon)).
Proof.
  split_and!.
  - intros Hs. unfold createEnvRecon, ReconciliationService.createEnvRecon.
    by rewrite Hs.
  - intros Hs Hf.
    exists (initialRow now org team env createEnv (fresh (dom (envReconRepo st)))).
    split_and!; [apply fresh_lookup_None | done |].
    unfold createEnvRecon, ReconciliationService.createEnvRecon,
      EnvironmentService.findById. by rewrite Hs, Hf.
  - intros Hs Hf. eexists _, _.
    apply (createEnvRecon_run flt now sched st org team env createEnv Hs Hf).
Qed.

(** X8. Starting an environment run never changes the answer of
    [getLatestCompReconcile], for any component and organization: the rows
    the fan-out adds are in [waiting_for_parent], which the query leaves out,
    and no other row is written. *)
Theorem createEnvRecon_keeps_latest flt now sched st org team env createEnv
    (org' : Organization) (comp : Component) :
  getLatestCompReconcile
    (createEnvRecon flt now sched st org team env createEnv).1 org' comp
  = getLatestCompReconcile st org' comp.
Proof.
  unfold getLatestCompReconcile. f_equal. apply findWhere_agree.
  intros k r Hw. rewrite createEnvRecon_compRows. split; [|by left].
  intros [Hold|(_ & _ & Hst & _)]; [done|].
  exfalso. destruct Hw as [[(_ & (_ & Hne) & _) _]|[(_ & (_ & Hne) & _) _]];
    by apply Hne.
Qed.

(** X9. Starting a run and then retiring what
    [getSkippedEnvironments] returns when told to ignore the new run leaves
    one open run in the environment's scope, the new one: the new run is
    still saved as it was created, every other run of the scope is closed or
    [skipped_reconcile], and the component runs just created are not
    touched. *)
Theorem new_run_is_the_open_run flt now sched st org team env createEnv :
  envKeyed st → envReconSaveFails flt = false → findByIdFails flt = false →
  ∃ st1 envRecon,
    createEnvRecon flt now sched st org team env createEnv = (st1, Fulfilled envRecon)
    ∧ let st2 :=
        bulkUpdateEnvironmentEntries st1
          (getSkippedEnvironments st1 org team env [er_reconcileId envRecon])
          "skipped_reconcile" in
      envReconRepo st2 !! er_reconcileId envRecon = Some envRecon
      ∧ envScope org team env envRecon
      ∧ er_endDateTime envRecon = None
      ∧ er_status envRecon ≠ "skipped_reconcile"
      ∧ (∀ k r, envReconRepo st2 !! k = Some r → envScope org team env r →
           er_endDateTime r = None → er_status r ≠ "skipped_reconcile" →
           r = envRecon)
      ∧ compReconRepo st2 = compReconRepo st1
      ∧ componentRepo st2 = componentRepo st1.
Proof.
  intros Hk Hs Hf.
  pose proof (createEnvRecon_run flt now sched st org team env createEnv Hs Hf) as Hrun.
  pose proof (createEnvRecon_envRepo flt now sched st org team env createEnv Hs) as Hrepo.
  simpl in Hrun. rewrite Hrun in Hrepo. simpl in Hrepo.
  set (rid := fresh (dom (envReconRepo st))) in *.
  set (er := initialRow now org team env createEnv rid) in *.
  set (st1 := (settle _ _ _ _ _ _).1) in *.
  assert (Hk1 : envKeyed st1).
  { unfold envKeyed. rewrite Hrepo. by apply map_Forall_insert_2. }
  assert (Her : envReconRepo st1 !! rid = Some er).
  { rewrite Hrepo. apply lookup_insert_eq. }
  exists st1, er. split; [exact Hrun|]. simpl.
  change (er_reconcileId er) with rid.
  split_and!; try done.
  - change (bulkUpdateEnvironmentEntries st1 _ _)
      with (sweepEnvironment st1 org team env [rid]).1.
    rewrite sweepEnvironment_lookup, Her by done.
    rewrite decide_False; [done|].
    intros (_ & _ & Hnot & _). apply Hnot. simpl. left.
  - intros k r Hr Hscope Hend Hst.
    destruct (SweepFacts.swept_env_row _ _ _ _ _ _ _ Hk1 Hr)
      as (r0 & Hr0 & [[_ ->]|[Hn ->]]); [done|].
    destruct (decide (er_reconcileId r0 ∈ [rid])) as [Hin|Hnin].
    + apply list_elem_of_singleton in Hin.
      rewrite (Hk1 _ _ Hr0) in Hin. subst k. congruence.
    + exfalso. apply Hn. destruct Hscope as (? & ? & ?). by repeat split.
  - apply bulkUpdateEnvironmentEntries_repo.
  - apply bulkUpdateEnvironmentEntries_repo.
Qed.

Lemma new_run_is_the_open_run_witness :
  ∃ st1 envRecon,
    createEnvRecon noFaults 1000 [1; 0]%nat runs org1 team1 env_prod
      (mkCreateEnv "prod" []) = (st1, Fulfilled envRecon)
    ∧ ∀ k r,
        envReconRepo
          (bulkUpdateEnvironmentEntries st1
             (getSkippedEnvironments st1 org1 team1 env_prod [er_reconcileId envRecon])
             "skipped_reconcile") !! k = Some r →
        envScope org1 team1 env_prod r → er_endDateTime r = None →
        er_status r ≠ "skipped_reconcile" → r = envRecon.
Proof.
  destruct (new_run_is_the_open_run noFaults 1000 [1; 0]%nat runs org1 team1 env_prod
              (mkCreateEnv "prod" []) envKeyed_runs eq_refl eq_refl)
    as (st1 & er & Hrun & _ & _ & _ & _ & Honly & _).
  exists st1, er. split; [exact Hrun | exact Honly].
Defined.

End RunFacts.

(** ** The other queries and saves of [ReconciliationService] *)

Module ReconciliationQueries.

Import ReconciliationService Sweeper.

(** [repo.findOne({ where })] without an [order]: one of the rows that
    satisfy the condition, here the first the table yields. *)
Definition findOne {V} (P : V → Prop) `{∀ v, Decision (P v)}
    (repo : gmap Z V) : option V :=
  head (findWhere P repo).

(** [getEnvReconByReconcileId], lines 464-482; the caller passes the
    organization as an object with an [id]. *)
Definition getEnvReconByReconcileId (st : Store) (orgId : Z) (reconcileId : Z)
    : option EnvironmentReconcile :=
  findOne (λ r, er_reconcileId r = reconcileId ∧ er_organization r = orgId)
    (envReconRepo st).

(** [findCompReconById], lines 598-616. *)
Definition findCompReconById (st : Store) (org : Organization) (reconcileId : Z)
    : option ComponentReconcile :=
  findOne (λ r, cr_reconcileId r = reconcileId ∧ cr_organization r = org_id org)
    (compReconRepo st).

(** [getEnvReconByEnv], lines 484-498. *)
Definition getEnvReconByEnv (st : Store) (org : Organization) (env : Environment)
    : option EnvironmentReconcile :=
  firstDesc er_startDateTime
    (findWhere
       (λ r, er_environment r = Some (env_id env) ∧ er_organization r = org_id org)
       (envReconRepo st)).

(** [getCompReconByComponent], lines 618-635. *)
Definition getCompReconByComponent (st : Store) (org : Organization)
    (comp : Component) : option ComponentReconcile :=
  firstDesc cr_startDateTime
    (findWhere
       (λ r, cr_component r = Some (comp_id comp) ∧ cr_organization r = org_id org)
       (compReconRepo st)).

(** [getLatestNonValidationErrorRec], lines 737-752. *)
Definition getLatestNonValidationErrorRec (st : Store) (org : Organization)
    (env : Environment) : option EnvironmentReconcile :=
  firstDesc er_endDateTime
    (findWhere
       (λ r, er_environment r = Some (env_id env)
             ∧ er_organization r = org_id org
             ∧ er_status r ≠ "validation_failed")
       (envReconRepo st)).

(** [getEnvReconStatusBySHA], lines 500-509. *)
Definition getEnvReconStatusBySHA (st : Store) (org : Organization)
    (gitSha : string) : option EnvironmentReconcile :=
  findOne (λ r, er_gitSha r = gitSha ∧ er_organization r = org_id org)
    (envReconRepo st).

(** The fields of [CreateErrorEnvironmentReconciliationDto] that
    [createErrorEnvRecon] reads. *)
Record CreateErrorEnvironmentReconciliationDto := mkCreateErrorEnvRecon {
  ceer_startDateTime : option Z;
  ceer_status : string;
  ceer_components : list EnvSpecComponentDto;
  ceer_errorMessage : option string;
  ceer_endDateTime : option Z;
  ceer_estimatedCost : option float;
}.

(** [createErrorEnvRecon], lines 435-453. An [estimatedCost] left out
    takes the column's default:
    Modelled from the spec: the entity class is not in the files modelled
    here; [estimatedCost] defaults to 0. *)
Definition createErrorEnvRecon (flt : Faults) (st : Store) (org : Organization)
    (team : Team) (env : Environment)
    (createEnv : CreateErrorEnvironmentReconciliationDto)
    : Store * Settled EnvironmentReconcile :=
  if envReconSaveFails flt then (st, Rejected)
  else
    let rid := fresh (dom (envReconRepo st)) in
    let row :=
      {| er_reconcileId := rid;
         er_startDateTime := ceer_startDateTime createEnv;
         er_environment := Some (env_id env);
         er_team := team_id team;
         er_status := ceer_status createEnv;
         er_organization := org_id org;
         er_dag := ceer_components createEnv;
         er_gitSha := "";
         er_errorMessage := Js.or_null (ceer_errorMessage createEnv);
         er_endDateTime := ceer_endDateTime createEnv;
         er_estimatedCost := default 0%float (ceer_estimatedCost createEnv) |} in
    ({| envReconRepo := <[rid := row]> (envReconRepo st);
        compReconRepo := compReconRepo st;
        componentRepo := componentRepo st |},
     Fulfilled row).

(** *** Lookup by key *)

Lemma findOne_keyed {V} (key : V → Z) (Q : V → Prop) `{∀ v, Decision (Q v)}
    (repo : gmap Z V) (rid : Z) :
  map_Forall (λ k v, key v = k) repo →
  findOne (λ v, key v = rid ∧ Q v) repo
  = match repo !! rid with
    | Some v => if decide (Q v) then Some v else None
    | None => None
    end.
Proof.
  intros Hk. unfold findOne.
  assert (Hel : ∀ v, v ∈ findWhere (λ v, key v = rid ∧ Q v) repo
                     ↔ repo !! rid = Some v ∧ Q v).
  { intros v. rewrite findWhere_elem. split.
    - intros (k & Hl & <- & HQ). by rewrite (Hk _ _ Hl).
    - intros [Hl HQ]. exists rid. split; [done|]. split; [by apply Hk | done]. }
  destruct (findWhere _ repo) as [|v l] eqn:Hl; simpl.
  - destruct (repo !! rid) as [v|] eqn:Hv; [|done].
    destruct (decide (Q v)); [|done].
    assert (Hin : v ∈ @nil V) by (by apply Hel). by apply elem_of_nil in Hin.
  - assert (Hv : repo !! rid = Some v ∧ Q v) by (apply Hel; left).
    destruct Hv as [-> HQ]. by rewrite decide_True.
Qed.

(** X10. On tables whose rows sit under their own [reconcileId], the two
    lookups by id return the row stored under that id when it belongs to the
    organization asked for, and nothing when the id is unknown or the row
    belongs to another organization. *)
Theorem lookup_by_reconcileId st :
  envKeyed st → compKeyed st →
  (∀ orgId reconcileId,
     getEnvReconByReconcileId st orgId reconcileId
     = match envReconRepo st !! reconcileId with
       | Some r => if decide (er_organization r = orgId) then Some r else None
       | None => None
       end)
  ∧ (∀ org reconcileId,
       findCompReconById st org reconcileId
       = match compReconRepo st !! reconcileId with
         | Some r => if decide (cr_organization r = org_id org) then Some r else None
         | None => None
         end).
Proof.
  intros Hek Hck. split.
  - intros orgId rid. by apply (findOne_keyed er_reconcileId).
  - intros org rid. by apply (findOne_keyed cr_reconcileId).
Qed.

Lemma lookup_by_reconcileId_witness :
  getEnvReconByReconcileId runs 1 2 = Some (envRun 2 "succeeded" (Some 250) 7)
  ∧ getEnvReconByReconcileId runs 2 2 = None
  ∧ findCompReconById runs org1 9 = None.
Proof.
  destruct (lookup_by_reconcileId runs envKeyed_runs compKeyed_runs) as [He Hc].
  split_and!.
  - rewrite He. reflexivity.
  - rewrite He. reflexivity.
  - rewrite Hc. reflexivity.
Defined.

(** *** Save, then look up *)



(** *** Ordered lookups *)


(** A row of the list that every other row of the list is strictly below
    is the one [firstDesc] returns. *)
Lemma firstDesc_top {V} (key : V → option Z) (rows : list V) (v : V) :
  v ∈ rows →
  (∀ w, w ∈ rows → Latest.startLe (key v) (key w) → w = v) →
  firstDesc key rows = Some v.
Proof.
  intros Hin Htop.
  pose proof (Latest.firstDesc_spec key rows) as Hspec.
  destruct (firstDesc key rows) as [u|].
  - destruct Hspec as [Hu Hmax]. f_equal. apply Htop; [done|]. by apply Hmax.
  - subst rows. by apply elem_of_nil in Hin.
Qed.

(** X12. A run recorded by [createErrorEnvRecon] with status
    [validation_failed] never changes what
    [getLatestNonValidationErrorRec] returns, for any organization and
    environment, whether the save succeeds or not. *)
Theorem validation_failure_is_passed_over flt st org team env createEnv :
  ceer_status createEnv = "validation_failed" →
  ∀ org' env',
    getLatestNonValidationErrorRec
      (createErrorEnvRecon flt st org team env createEnv).1 org' env'
    = getLatestNonValidationErrorRec st org' env'.
Proof.
  intros Hst org' env'. unfold getLatestNonValidationErrorRec, createErrorEnvRecon.
  destruct (envReconSaveFails flt); [done|]. simpl. f_equal.
  apply RunFacts.findWhere_agree. intros k v (_ & _ & Hne).
  pose proof (EnvironmentController.fresh_lookup_None (envReconRepo st)) as Hfresh.
  destruct (decide (k = fresh (dom (envReconRepo st)))) as [->|Hk].
  - rewrite lookup_insert_eq, Hfresh. split; [|done].
    intros [= <-]. simpl in Hne. by rewrite Hst in Hne.
  - by rewrite lookup_insert_ne.
Qed.

Lemma validation_failure_is_passed_over_witness :
  getLatestNonValidationErrorRec
    (createErrorEnvRecon noFaults runs org1 team1 env_prod
       (mkCreateErrorEnvRecon (Some 900) "validation_failed" [] (Some "bad spec")
          (Some 901) None)).1 org1 env_prod
  = getLatestNonValidationErrorRec runs org1 env_prod.
Proof.
  apply (validation_failure_is_passed_over noFaults runs org1 team1 env_prod
           (mkCreateErrorEnvRecon (Some 900) "validation_failed" [] (Some "bad spec")
              (Some 901) None)).
  reflexivity.
Defined.

(** X13. When the clock reads later than the start of every run the
    environment has had in the organization, the run that
    [EnvironmentController.createEnvRecon] starts is the one
    [getEnvReconByEnv] returns afterwards, whatever happens to the
    component runs. *)
Theorem started_run_is_latest_by_env flt now sched st org team env createEnv :
  envReconSaveFails flt = false → findByIdFails flt = false →
  (∀ k r t, envReconRepo st !! k = Some r →
     er_environment r = Some (env_id env) → er_organization r = org_id org →
     er_startDateTime r = Some t → t < now) →
  ∃ st1 envRecon,
    EnvironmentController.createEnvRecon flt now sched st org team env createEnv
      = (st1, Fulfilled envRecon)
    ∧ getEnvReconByEnv st1 org env = Some envRecon.
Proof.
  intros Hs Hf Hbefore.
  pose proof (EnvironmentController.createEnvRecon_run
                flt now sched st org team env createEnv Hs Hf) as Hrun.
  pose proof (RunFacts.createEnvRecon_envRepo
                flt now sched st org team env createEnv Hs) as Hrepo.
  simpl in Hrun. rewrite Hrun in Hrepo. simpl in Hrepo.
  eexists _, _. split; [exact Hrun|].
  unfold getEnvReconByEnv. rewrite Hrepo.
  pose proof (EnvironmentController.fresh_lookup_None (envReconRepo st)) as Hfresh.
  apply firstDesc_top.
  - apply findWhere_elem. eexists. split; [apply lookup_insert_eq | done].
  - intros w (k & Hw & Henv & Horg)%findWhere_elem Hle.
    destruct (decide (k = fresh (dom (envReconRepo st)))) as [->|Hk].
    + rewrite lookup_insert_eq in Hw. congruence.
    + rewrite lookup_insert_ne in Hw by done. exfalso. simpl in Hle.
      destruct (er_startDateTime w) as [t|] eqn:Ht; [|done].
      pose proof (Hbefore k w t Hw Henv Horg Ht). lia.
Qed.

Lemma started_run_is_latest_by_env_witness :
  ∃ st1 envRecon,
    EnvironmentController.createEnvRecon noFaults 1000 [1; 0]%nat runs org1 team1
      env_prod (mkCreateEnv "prod" []) = (st1, Fulfilled envRecon)
    ∧ getEnvReconByEnv st1 org1 env_prod = Some envRecon.
Proof.
  apply (started_run_is_latest_by_env noFaults 1000 [1; 0]%nat runs org1 team1
           env_prod (mkCreateEnv "prod" []) eq_refl eq_refl).
  intros k r t Hr _ _ Ht.
  assert (Hall : map_Forall
            (λ _ r, match er_startDateTime r with Some t => t <? 1000 | None => true end
                    = true) (envReconRepo runs)).
  { apply map_Forall_to_list. by vm_compute; repeat constructor. }
  specialize (Hall k r Hr). simpl in Hall. rewrite Ht in Hall. lia.
Defined.


(** One live component of environment 7 with one finished run. *)
Definition startedStore : Store :=
  {| envReconRepo := ∅;
     compReconRepo := {[ 1 := Latest.runAt 1 "succeeded" 100 ]};
     componentRepo := {[ 1 := EnvironmentController.comp_vpc ]} |}.

(** X15. For a component that already has a run with a start time,
    [getCompReconByComponent] after
    [EnvironmentController.createEnvRecon] still returns a run that was in
    the table before, with a start time: the runs just created carry no
    start time and sort below every started run. *)
Theorem pending_run_is_not_latest_by_component
    flt now sched st org team env createEnv org' comp k0 r0 t :
  compReconRepo st !! k0 = Some r0 →
  cr_component r0 = Some (comp_id comp) → cr_organization r0 = org_id org' →
  cr_startDateTime r0 = Some t →
  ∃ r,
    getCompReconByComponent
      (EnvironmentController.createEnvRecon flt now sched st org team env createEnv).1
      org' comp = Some r
    ∧ (∃ k, compReconRepo st !! k = Some r)
    ∧ Latest.startLe (Some t) (cr_startDateTime r).
Proof.
  intros Hr0 Hc Ho Ht.
  set (st1 := (EnvironmentController.createEnvRecon
                 flt now sched st org team env createEnv).1).
  assert (Hold : ∀ k r, compReconRepo st !! k = Some r →
                        compReconRepo st1 !! k = Some r).
  { intros k r Hr. apply RunFacts.createEnvRecon_compRows. by left. }
  unfold getCompReconByComponent.
  match goal with |- context [firstDesc _ ?l] =>
    pose proof (Latest.firstDesc_spec cr_startDateTime l) as Hany;
    assert (Hin0 : r0 ∈ l) by (apply findWhere_elem; exists k0; auto);
    destruct (firstDesc cr_startDateTime l) as [r|]
  end.
  - destruct Hany as [(k & Hr & _)%findWhere_elem Hmax].
    specialize (Hmax r0 Hin0). rewrite Ht in Hmax.
    exists r. split; [done|]. split; [|done].
    apply RunFacts.createEnvRecon_compRows in Hr.
    destruct Hr as [Hr|(_ & _ & _ & Hnone)]; [by exists k|].
    by rewrite Hnone in Hmax.
  - rewrite Hany in Hin0. by apply elem_of_nil in Hin0.
Qed.

Lemma pending_run_is_not_latest_by_component_witness :
  getCompReconByComponent
    (EnvironmentController.createEnvRecon noFaults 1000 [0]%nat startedStore
       EnvironmentController.org0 EnvironmentController.team0
       EnvironmentController.env7 EnvironmentController.dto0).1
    EnvironmentController.org0 EnvironmentController.comp_vpc
  = Some (Latest.runAt 1 "succeeded" 100).
Proof.
  destruct (pending_run_is_not_latest_by_component noFaults 1000 [0]%nat startedStore
              EnvironmentController.org0 EnvironmentController.team0
              EnvironmentController.env7 EnvironmentController.dto0
              EnvironmentController.org0 EnvironmentController.comp_vpc
              1 (Latest.runAt 1 "succeeded" 100) 100
              eq_refl eq_refl eq_refl eq_refl)
    as (r & Hget & (k & Hk) & _).
  rewrite Hget. f_equal. simpl in Hk.
  apply lookup_singleton_Some in Hk. by destruct Hk.
Defined.

(** X17. Both ways of recording a run store it with an empty [gitSha],
    so neither changes what [getEnvReconStatusBySHA] returns for a commit
    that is not the empty string, in any organization and whatever fails. *)
Theorem new_run_not_found_by_commit
    flt now sched st org team env createEnv createErr gitSha :
  gitSha ≠ "" →
  ∀ org',
    getEnvReconStatusBySHA
      (EnvironmentController.createEnvRecon flt now sched st org team env createEnv).1
      org' gitSha
    = getEnvReconStatusBySHA st org' gitSha
    ∧ getEnvReconStatusBySHA
        (createErrorEnvRecon flt st org team env createErr).1 org' gitSha
      = getEnvReconStatusBySHA st org' gitSha.
Proof.
  intros Hsha org'. unfold getEnvReconStatusBySHA, findOne.
  pose proof (EnvironmentController.fresh_lookup_None (envReconRepo st)) as Hfresh.
  assert (Hagree : ∀ row, er_gitSha row = "" →
            findWhere (λ r, er_gitSha r = gitSha ∧ er_organization r = org_id org')
              (<[fresh (dom (envReconRepo st)) := row]> (envReconRepo st))
            = findWhere (λ r, er_gitSha r = gitSha ∧ er_organization r = org_id org')
                (envReconRepo st)).
  { intros row Hrow. apply RunFacts.findWhere_agree. intros k v [Hv _].
    destruct (decide (k = fresh (dom (envReconRepo st)))) as [->|Hk].
    - rewrite lookup_insert_eq, Hfresh. split; [|done]. intros [= <-]. congruence.
    - by rewrite lookup_insert_ne. }
  split.
  - destruct (envReconSaveFails flt) eqn:Hs.
    + unfold EnvironmentController.createEnvRecon,
        ReconciliationService.createEnvRecon. by rewrite Hs.
    + rewrite (RunFacts.createEnvRecon_envRepo _ _ _ _ _ _ _ _ Hs).
      by rewrite Hagree.
  - unfold createErrorEnvRecon. destruct (envReconSaveFails flt); [done|]. simpl.
    by rewrite Hagree.
Qed.

Lemma new_run_not_found_by_commit_witness :
  getEnvReconStatusBySHA
    (EnvironmentController.createEnvRecon noFaults 1000 [1; 0]%nat runs org1 team1
       env_prod (mkCreateEnv "prod" [])).1 org1 "4f2a9c1"
  = getEnvReconStatusBySHA runs org1 "4f2a9c1".
Proof.
  apply (new_run_not_found_by_commit noFaults 1000 [1; 0]%nat runs org1 team1
           env_prod (mkCreateEnv "prod" [])
           (mkCreateErrorEnvRecon None "validation_failed" [] None None None)
           "4f2a9c1").
  discriminate.
Defined.

End ReconciliationQueries.

(** ** What the recomputed cost can be *)

Module CostFacts.

Import ReconciliationService Cost.

Lemma costLoop_nonneg comps acc :
  nonneg_sf (Prim2SF acc) → nonneg_sf (Prim2SF (fold_left costStep comps acc)).
Proof.
  revert acc. induction comps as [|c comps IH]; intros acc Hacc; simpl; [done|].
  apply IH. by apply costStep_contribution.
Qed.

Lemma costLoop_nothing comps acc :
  (∀ c r, c ∈ comps → latestCompRecon c = Some r →
     (0 <? cr_estimatedCost r)%float = false) →
  fold_left costStep comps acc = acc.
Proof.
  revert acc. induction comps as [|c comps IH]; intros acc Hno; simpl; [done|].
  rewrite IH by (intros c' r Hc'; apply Hno; by right).
  unfold costStep. destruct (latestCompRecon c) as [r|] eqn:Hr; [|done].
  by rewrite (Hno c r (list_elem_of_here _ _) Hr).
Qed.

Lemma nonneg_not_below_zero (x : float) :
  nonneg_sf (Prim2SF x) → (x <? 0)%float = false ∧ x ≠ (-0)%float.
Proof.
  intros Hx. split.
  - rewrite ltb_spec. change (Prim2SF 0) with (S754_zero false).
    unfold SFltb. destruct (Prim2SF x) as [s|s| |s m e]; simpl in *; subst; done.
  - intros ->. by vm_compute in Hx.
Qed.

(** X16. The cost [updateCost] saves on the latest run is never below
    zero and never the negative zero, whatever costs the component runs
    carry (negative, NaN, infinite), and it is 0 when no component has a
    latest run whose cost is greater than 0. *)
Theorem updateCost_never_negative st env envRecon :
  latestEnvRecon env = Some envRecon →
  ∃ saved,
    envReconRepo (updateCost st env).1 !! er_reconcileId (columns envRecon)
      = Some saved
    ∧ (er_estimatedCost saved <? 0)%float = false
    ∧ er_estimatedCost saved ≠ (-0)%float
    ∧ ((∀ c r, c ∈ components env → latestCompRecon c = Some r →
          (0 <? cr_estimatedCost r)%float = false) →
       er_estimatedCost saved = 0%float).
Proof.
  intros He. unfold updateCost. rewrite He. simpl.
  eexists. split; [apply lookup_insert_eq|]. simpl.
  assert (Hnn : nonneg_sf (Prim2SF (fold_left costStep (components env) 0%float))).
  { apply costLoop_nonneg. by vm_compute. }
  destruct (nonneg_not_below_zero _ Hnn) as [Hlt Hz].
  split_and!; [done | done |]. apply costLoop_nothing.
Qed.

Lemma updateCost_never_negative_witness :
  ∃ saved,
    envReconRepo (updateCost costStore costEnv).1 !! 9 = Some saved
    ∧ (er_estimatedCost saved <? 0)%float = false.
Proof.
  destruct (updateCost_never_negative costStore costEnv
              {| columns := run9; componentReconciles := Some [staleChild] |} eq_refl)
    as (saved & Hrow & Hlt & _).
  exists saved. split; [exact Hrow | exact Hlt].
Defined.

End CostFacts.
